(** * SmileBus ingestion: a shallow embedding of [scripts/smilebus_data_populate.py]

    The script creates a three-table SQLite schema, fetches one JSON document
    per origin city, normalises each document into [cities], [stops] and
    [routes] rows, and exports a joined, ordered route summary.

    The embedding keeps the two layers of the script apart:
    - the Python control flow ([fetch_city_data], [process_city_data],
      [populate_database], [export_route_summary], [create_database]);
    - the SQL statements it sends, with the semantics SQLite gives them on the
      schema declared in [create_database].  *)

From Stdlib Require Import ZArith String Ascii.
From stdpp Require Import gmap strings list sorting pretty.

Local Open Scope Z_scope.

(** ** Upstream payload

    The decoded JSON of one response:
    [{result, data: [{id_city, city_name, city_slug, is_waypoint, is_top,
                      stops: [{id, title, gps, photo_url, order, is_default}]}]}].
    A JSON [null] is [None]; identifiers and the 0/1 flags are integers. *)
Module Json.
Record Stop := {
  id : Z;
  title : option string;
  gps : option string;
  photo_url : option string;
  order : option Z;
  is_default : Z
}.

Record City := {
  id_city : Z;
  city_name : option string;
  city_slug : option string;
  is_waypoint : Z;
  is_top : Z;
  stops : list Stop
}.
End Json.

(** The dictionary [{'city_id': city_id, 'data': data['data']}] returned by
    [fetch_city_data]. *)
Record CityData := {
  city_id : Z;
  data : list Json.City
}.

(** Python's [bool(x)] on an integer. *)
Definition py_bool (x : Z) : bool := negb (x =? 0)%Z.

(** ** The store

    Rows of the three tables of [create_database].  [cities.name] and
    [stops.title] are declared [NOT NULL], so a stored row always carries a
    string there; every other non-key column is nullable. *)
Module Tbl.
Record City := {
  name : string;
  slug : option string;
  is_waypoint : bool;
  is_top : bool
}.

Record Stop := {
  city_id : option Z;
  title : string;
  gps : option string;
  photo_url : option string;
  order_num : option Z;
  is_default : bool
}.

Record Route := {
  id : Z;
  from_city_id : option Z;
  to_city_id : option Z;
  from_stop_id : option Z;
  to_stop_id : option Z
}.
End Tbl.

(** Objects of [sqlite_master]: a table with its columns, or an index on some
    columns of a table. *)
Inductive SchemaObject :=
| Table (columns : list string)
| Index (table : string) (columns : list string).

(** The database file.  [cities] and [stops] are keyed by their
    [INTEGER PRIMARY KEY]; [routes] is kept in rowid order, and
    [sqlite_sequence] is the AUTOINCREMENT counter of [routes]. *)
Record Database := {
  schema : gmap string SchemaObject;
  cities : gmap Z Tbl.City;
  stops : gmap Z Tbl.Stop;
  routes : list Tbl.Route;
  sqlite_sequence : Z
}.

Definition empty_database : Database :=
  {| schema := ∅; cities := ∅; stops := ∅; routes := []; sqlite_sequence := 0 |}.

(** ** SQL statements of [process_city_data], with their bound parameters *)
Inductive Statement :=
| InsertOrReplaceCity (id : Z) (name slug : option string) (is_waypoint is_top : bool)
| InsertOrReplaceStop (id : Z) (city_id : option Z) (title gps photo_url : option string)
                      (order_num : option Z) (is_default : bool)
| InsertOrIgnoreRoute (from_city_id to_city_id from_stop_id to_stop_id : option Z).

(** [sqlite3.IntegrityError] and [sqlite3.OperationalError], with SQLite's
    message. *)
Inductive Exn :=
| IntegrityError (msg : string)
| OperationalError (msg : string).

(** What the connection did, in order. *)
Inductive Event :=
| Begin
| Exec (s : Statement)
| Commit.

(** A [sqlite3.Connection].  [committed] is the content of the file, which is
    what any other connection reads; [db] is this connection's view, with the
    writes of its open transaction.  [foreign_keys] is the connection's
    [PRAGMA foreign_keys] setting: it belongs to the connection, not to the
    file. *)
Record Connection := {
  foreign_keys : bool;
  committed : Database;
  db : Database;
  in_transaction : bool;
  journal : list Event
}.

(** [sqlite3.connect('smilebus.db')]: foreign-key enforcement is off on a new
    connection until that connection runs [PRAGMA foreign_keys = ON]. *)
Definition connect (file : Database) : Connection :=
  {| foreign_keys := false; committed := file; db := file;
     in_transaction := false; journal := [] |}.

(** A foreign key holds when the child value is NULL or names a parent row. *)
Definition fk_ok {V} (parent : gmap Z V) (child : option Z) : bool :=
  match child with
  | None => true
  | Some k => bool_decide (is_Some (parent !! k))
  end.

Definition max_rowid (rs : list Tbl.Route) : Z :=
  foldr (fun r m => Z.max (Tbl.id r) m) 0 rs.

(** AUTOINCREMENT: one more than the largest rowid ever used (the 64-bit
    limit of rowids is not represented). *)
Definition next_rowid (d : Database) : Z :=
  Z.max (max_rowid (routes d)) (sqlite_sequence d) + 1.

Definition set_cities (f : gmap Z Tbl.City → gmap Z Tbl.City) (d : Database) : Database :=
  {| schema := schema d; cities := f (cities d); stops := stops d;
     routes := routes d; sqlite_sequence := sqlite_sequence d |}.

Definition set_stops (f : gmap Z Tbl.Stop → gmap Z Tbl.Stop) (d : Database) : Database :=
  {| schema := schema d; cities := cities d; stops := f (stops d);
     routes := routes d; sqlite_sequence := sqlite_sequence d |}.

Definition append_route (r : Tbl.Route) (d : Database) : Database :=
  {| schema := schema d; cities := cities d; stops := stops d;
     routes := routes d ++ [r]; sqlite_sequence := Tbl.id r |}.

(** One statement against the tables of [create_database].

    - [INSERT OR REPLACE INTO cities]: a NULL [name] has no default to fall
      back on, so the statement aborts; otherwise the row with that [id] is
      overwritten or created.
    - [INSERT OR REPLACE INTO stops]: the same for [title]; with foreign keys
      enforced, [city_id] must name a city.
    - [INSERT OR IGNORE INTO routes]: the only uniqueness constraint of
      [routes] is its AUTOINCREMENT [id], which the statement does not supply,
      so no conflict can arise and a row is always added; with foreign keys
      enforced the four references are checked, and [OR IGNORE] does not
      cover a foreign-key failure. *)
Definition run_statement (fk : bool) (s : Statement) (d : Database) : Exn + Database :=
  match s with
  | InsertOrReplaceCity i nm sl wp tp =>
      match nm with
      | None => inl (IntegrityError "NOT NULL constraint failed: cities.name")
      | Some n =>
          inr (set_cities (insert i {| Tbl.name := n; Tbl.slug := sl;
                                       Tbl.is_waypoint := wp; Tbl.is_top := tp |}) d)
      end
  | InsertOrReplaceStop i c t g p o df =>
      match t with
      | None => inl (IntegrityError "NOT NULL constraint failed: stops.title")
      | Some t' =>
          if fk && negb (fk_ok (cities d) c)
          then inl (IntegrityError "FOREIGN KEY constraint failed")
          else inr (set_stops (insert i {| Tbl.city_id := c; Tbl.title := t'; Tbl.gps := g;
                                           Tbl.photo_url := p; Tbl.order_num := o;
                                           Tbl.is_default := df |}) d)
      end
  | InsertOrIgnoreRoute fc tc fs ts =>
      if fk && negb (fk_ok (cities d) fc && fk_ok (cities d) tc &&
                     fk_ok (stops d) fs && fk_ok (stops d) ts)
      then inl (IntegrityError "FOREIGN KEY constraint failed")
      else inr (append_route {| Tbl.id := next_rowid d; Tbl.from_city_id := fc;
                                Tbl.to_city_id := tc; Tbl.from_stop_id := fs;
                                Tbl.to_stop_id := ts |} d)
  end.

(** ** Code that raises and mutates the connection *)
Definition M (A : Type) : Type := Connection → (Exn + A) * Connection.

Definition ret {A} (a : A) : M A := fun conn => (inr a, conn).

Definition bind {A B} (m : M A) (k : A → M B) : M B :=
  fun conn =>
    match m conn with
    | (inr a, conn') => k a conn'
    | (inl e, conn') => (inl e, conn')
    end.

Declare Scope conn_scope.
Delimit Scope conn_scope with conn.
Notation "m ;; k" := (bind m (fun _ => k))
  (at level 100, k at level 200, right associativity) : conn_scope.
Local Open Scope conn_scope.

(** [for x in xs: body(x)] *)
Fixpoint for_each {A} (xs : list A) (body : A → M unit) : M unit :=
  match xs with
  | [] => ret tt
  | x :: xs' => body x ;; for_each xs' body
  end.

Definition with_db (d : Database) (conn : Connection) : Connection :=
  {| foreign_keys := foreign_keys conn; committed := committed conn; db := d;
     in_transaction := in_transaction conn; journal := journal conn |}.

Definition log_event (ev : Event) (conn : Connection) : Connection :=
  {| foreign_keys := foreign_keys conn; committed := committed conn; db := db conn;
     in_transaction := in_transaction conn; journal := journal conn ++ [ev] |}.

(** The sqlite3 module opens a transaction before the first INSERT or REPLACE
    of a connection that has none open. *)
Definition begin_if_needed (conn : Connection) : Connection :=
  if in_transaction conn then conn
  else
    {| foreign_keys := foreign_keys conn; committed := committed conn; db := db conn;
       in_transaction := true; journal := journal conn ++ [Begin] |}.

(** [c.execute(sql, params)]: a failing statement changes no row and leaves
    the transaction open. *)
Definition execute (s : Statement) : M unit :=
  fun conn =>
    let conn := begin_if_needed conn in
    match run_statement (foreign_keys conn) s (db conn) with
    | inl e => (inl e, conn)
    | inr d => (inr tt, log_event (Exec s) (with_db d conn))
    end.

(** [conn.commit()] *)
Definition commit (conn : Connection) : Connection :=
  if in_transaction conn then
    {| foreign_keys := foreign_keys conn; committed := db conn; db := db conn;
       in_transaction := false; journal := journal conn ++ [Commit] |}
  else conn.

(** ** [process_city_data] *)
Definition process_city_data (city_data : CityData) : M unit :=
  for_each (data city_data) (fun city =>
    execute (InsertOrReplaceCity (Json.id_city city) (Json.city_name city)
               (Json.city_slug city)
               (py_bool (Json.is_waypoint city)) (py_bool (Json.is_top city))) ;;
    for_each (Json.stops city) (fun stop =>
      execute (InsertOrReplaceStop (Json.id stop) (Some (Json.id_city city))
                 (Json.title stop) (Json.gps stop) (Json.photo_url stop)
                 (Json.order stop) (py_bool (Json.is_default stop)))) ;;
    for_each (Json.stops city) (fun stop =>
      execute (InsertOrIgnoreRoute (Some (city_id city_data)) (Some (Json.id_city city))
                 None (Some (Json.id stop))))).

(** ** [fetch_city_data] *)

(** What [requests.get(...)], [raise_for_status()] and [response.json()] leave
    the worker with: a [requests.RequestException] (timeout, connection
    failure, non-2xx status), or the decoded document with its [result] and
    its [data]. *)
Inductive Response :=
| RequestException (e : string)
| Decoded (result : string) (payload : list Json.City).

Inductive LogRecord :=
| ErrorFetching (city_id : Z) (e : string)
| Processed (city_id : Z)
| ErrorProcessing (city_id : Z) (e : Exn)
| Completed.

Inductive Level := INFO | ERROR.

Definition level (r : LogRecord) : Level :=
  match r with
  | ErrorFetching _ _ => ERROR
  | Processed _ => INFO
  | ErrorProcessing _ _ => ERROR
  | Completed => INFO
  end.

(** Truthiness of a list. *)
Definition truthy {A} (l : list A) : bool :=
  match l with [] => false | _ => true end.

Definition fetch_city_data (city_id : Z) (resp : Response)
  : option CityData * list LogRecord :=
  match resp with
  | Decoded result payload =>
      if String.eqb result "success" && truthy payload
      then (Some {| city_id := city_id; data := payload |}, [])
      else (None, [])
  | RequestException e => (None, [ErrorFetching city_id e])
  end.

(** ** [populate_database]

    [upstream] is what the remote source answers for each identifier and
    [arrival] the order in which [as_completed] yields the futures.  The
    workers of the pool run [fetch_city_data] only; each completed future is
    handled by the loop body below, in the thread that opened the connection.
    [PRAGMA journal_mode = WAL] changes how the file is journalled, not what
    the statements do, and has no counterpart here. *)
Definition handle_future (upstream : Z → Response) (st : Connection * list LogRecord)
    (cid : Z) : Connection * list LogRecord :=
  let '(conn, log) := st in
  let '(city_data, fetch_log) := fetch_city_data cid (upstream cid) in
  match city_data with
  | Some cd =>
      match process_city_data cd conn with
      | (inr _, conn') => (conn', log ++ fetch_log ++ [Processed cid])
      | (inl e, conn') => (conn', log ++ fetch_log ++ [ErrorProcessing cid e])
      end
  | None => (conn, log ++ fetch_log)
  end.

Definition ingest (upstream : Z → Response) (arrival : list Z) (conn : Connection)
  : Connection * list LogRecord :=
  foldl (handle_future upstream) (conn, []) arrival.

Definition populate_connection (upstream : Z → Response) (arrival : list Z)
    (file : Database) : Connection * list LogRecord :=
  let '(conn, log) := ingest upstream arrival (connect file) in
  (commit conn, log ++ [Completed]).

(** The file after [conn.close()], and the log. *)
Definition populate_database (upstream : Z → Response) (arrival : list Z)
    (file : Database) : Database * list LogRecord :=
  let '(conn, log) := populate_connection upstream arrival file in
  (committed conn, log).

(** The identifiers submitted to the pool: [range(1, 1001)]. *)
Definition submitted : list Z := Z.of_nat <$> seq 1 1000.

(** ** [create_database]

    The statements of the script passed to [executescript]. *)
Inductive ScriptStatement :=
| PragmaForeignKeysOn
| CreateTableIfNotExists (name : string) (columns : list string)
| CreateIndexIfNotExists (name table : string) (columns : list string).

Definition schema_script : list ScriptStatement :=
  [ PragmaForeignKeysOn;
    CreateTableIfNotExists "cities" ["id"; "name"; "slug"; "is_waypoint"; "is_top"];
    CreateTableIfNotExists "stops"
      ["id"; "city_id"; "title"; "gps"; "photo_url"; "order_num"; "is_default"];
    CreateTableIfNotExists "routes"
      ["id"; "from_city_id"; "to_city_id"; "from_stop_id"; "to_stop_id"];
    CreateIndexIfNotExists "idx_cities_slug" "cities" ["slug"];
    CreateIndexIfNotExists "idx_stops_city_id" "stops" ["city_id"];
    CreateIndexIfNotExists "idx_routes_from_to" "routes" ["from_city_id"; "to_city_id"] ].

(** [CREATE TABLE IF NOT EXISTS] does nothing when a table of that name
    exists and fails when the name is an index.  [CREATE INDEX IF NOT EXISTS]
    needs its table, fails when the name is a table, does nothing when an
    index of that name exists, and otherwise needs the indexed columns. *)
Definition run_ddl (s : ScriptStatement) (sch : gmap string SchemaObject)
  : Exn + gmap string SchemaObject :=
  match s with
  | PragmaForeignKeysOn => inr sch
  | CreateTableIfNotExists n cols =>
      match sch !! n with
      | Some (Table _) => inr sch
      | Some (Index _ _) => inl (OperationalError "there is already an index of that name")
      | None => inr (<[n := Table cols]> sch)
      end
  | CreateIndexIfNotExists n t cols =>
      match sch !! t with
      | Some (Table tcols) =>
          match sch !! n with
          | Some (Table _) => inl (OperationalError "there is already a table of that name")
          | Some (Index _ _) => inr sch
          | None =>
              if forallb (fun c => bool_decide (c ∈ tcols)) cols
              then inr (<[n := Index t cols]> sch)
              else inl (OperationalError "no such column")
          end
      | _ => inl (OperationalError "no such table")
      end
  end.

Definition set_schema (sch : gmap string SchemaObject) (d : Database) : Database :=
  {| schema := sch; cities := cities d; stops := stops d;
     routes := routes d; sqlite_sequence := sqlite_sequence d |}.

(** One statement of the script.  The connection has no transaction open,
    so a schema change reaches the file at once; the pragma changes the
    connection only. *)
Definition run_script_statement (s : ScriptStatement) : M unit :=
  fun conn =>
    match run_ddl s (schema (db conn)) with
    | inl e => (inl e, conn)
    | inr sch =>
        (inr tt,
         {| foreign_keys :=
              match s with PragmaForeignKeysOn => true | _ => foreign_keys conn end;
            committed := set_schema sch (committed conn);
            db := set_schema sch (db conn);
            in_transaction := in_transaction conn;
            journal := journal conn |})
    end.

(** [c.executescript(...)]: statement after statement, up to the first one
    that fails. *)
Definition executescript (script : list ScriptStatement) : M unit :=
  for_each script run_script_statement.

(** The outcome of the call and the file it leaves.  When the script raises,
    [conn.commit()] and [conn.close()] are not reached; the connection and
    its pragma are gone with the call either way. *)
Definition create_database (file : Database) : (Exn + unit) * Database :=
  match executescript schema_script (connect file) with
  | (inr _, conn) => (inr tt, committed (commit conn))
  | (inl e, conn) => (inl e, committed conn)
  end.

(** The script on the schema alone. *)
Fixpoint run_script (script : list ScriptStatement) (sch : gmap string SchemaObject)
  : (Exn + unit) * gmap string SchemaObject :=
  match script with
  | [] => (inr tt, sch)
  | s :: script' =>
      match run_ddl s sch with
      | inl e => (inl e, sch)
      | inr sch' => run_script script' sch'
      end
  end.

(** The object a statement of the script asks for is in the schema. *)
Definition declares (s : ScriptStatement) (sch : gmap string SchemaObject) : Prop :=
  match s with
  | PragmaForeignKeysOn => True
  | CreateTableIfNotExists n _ => ∃ cols, sch !! n = Some (Table cols)
  | CreateIndexIfNotExists n t _ =>
      (∃ tcols, sch !! t = Some (Table tcols)) ∧
      (∃ t' cols, sch !! n = Some (Index t' cols))
  end.

(** Calling [create_database] [n] times in a row. *)
Definition create_database_times (n : nat) (file : Database) : Database :=
  Nat.iter n (fun f => (create_database f).2) file.

(** ** [export_route_summary] *)
Module Sql.
(** A row of the SELECT: [r.id, from_city, to_city, from_stop, to_stop]. *)
Record Row := {
  id : Z;
  from_city : string;
  to_city : string;
  from_stop : option string;
  to_stop : string
}.
End Sql.

Module Summary.
(** An entry of the exported list. *)
Record Route := {
  id : Z;
  from_city : string;
  to_city : string;
  from_stop : string;
  to_stop : string
}.
End Summary.

(** The joins for one row of [routes]: inner joins on the two cities and the
    destination stop, a left join on the origin stop. *)
Definition join_route (d : Database) (r : Tbl.Route) : option Sql.Row :=
  c1 ← Tbl.from_city_id r ≫= (cities d !!.);
  c2 ← Tbl.to_city_id r ≫= (cities d !!.);
  let s1 := Tbl.from_stop_id r ≫= (stops d !!.) in
  s2 ← Tbl.to_stop_id r ≫= (stops d !!.);
  Some {| Sql.id := Tbl.id r; Sql.from_city := Tbl.name c1; Sql.to_city := Tbl.name c2;
          Sql.from_stop := Tbl.title <$> s1; Sql.to_stop := Tbl.title s2 |}.

(** Ordering of TEXT values: byte-wise, and NULL before any text. *)
Definition compare_nullable (a b : option string) : comparison :=
  match a, b with
  | None, None => Eq
  | None, Some _ => Lt
  | Some _, None => Gt
  | Some x, Some y => String.compare x y
  end.

Definition then_by (c rest : comparison) : comparison :=
  match c with Eq => rest | _ => c end.

(** [ORDER BY c1.name, c2.name, s1.title, s2.title] *)
Definition order_by (a b : Sql.Row) : comparison :=
  then_by (String.compare (Sql.from_city a) (Sql.from_city b))
    (then_by (String.compare (Sql.to_city a) (Sql.to_city b))
       (then_by (compare_nullable (Sql.from_stop a) (Sql.from_stop b))
          (String.compare (Sql.to_stop a) (Sql.to_stop b)))).

Definition row_le (a b : Sql.Row) : Prop := order_by a b ≠ Gt.

#[global] Instance comparison_eq_dec : EqDecision comparison.
Proof. solve_decision. Defined.

#[global] Instance row_le_dec : RelDecision row_le.
Proof. intros a b. unfold row_le. apply _. Defined.

Definition select_routes (d : Database) : list Sql.Row :=
  merge_sort row_le (omap (join_route d) (routes d)).

(** [row[3] or 'Any'] *)
Definition or_any (t : option string) : string :=
  match t with
  | None => "Any"
  | Some "" => "Any"
  | Some s => s
  end.

Definition render (row : Sql.Row) : Summary.Route :=
  {| Summary.id := Sql.id row; Summary.from_city := Sql.from_city row;
     Summary.to_city := Sql.to_city row; Summary.from_stop := or_any (Sql.from_stop row);
     Summary.to_stop := Sql.to_stop row |}.

Definition export_route_summary (d : Database) : list Summary.Route :=
  render <$> select_routes d.

(** A three-way comparison that orders its type: swapping the arguments
    flips the answer, "less" is transitive, and elements that compare equal
    compare alike with everything. *)
Class Ordering {A} (cmp : A → A → comparison) : Prop := {
  cmp_antisym : ∀ a b, cmp a b = CompOpp (cmp b a);
  cmp_lt_trans : ∀ a b c, cmp a b = Lt → cmp b c = Lt → cmp a c = Lt;
  cmp_eq_compat : ∀ a b, cmp a b = Eq → ∀ c, cmp a c = cmp b c
}.

(** ** Derived notions used to state the properties *)

(** The three statements of [process_city_data], for a destination-city
    record, one of its stops and the origin identifier. *)
Definition city_row_statement (city : Json.City) : Statement :=
  InsertOrReplaceCity (Json.id_city city) (Json.city_name city) (Json.city_slug city)
    (py_bool (Json.is_waypoint city)) (py_bool (Json.is_top city)).

Definition stop_row_statement (city : Json.City) (stop : Json.Stop) : Statement :=
  InsertOrReplaceStop (Json.id stop) (Some (Json.id_city city))
    (Json.title stop) (Json.gps stop) (Json.photo_url stop)
    (Json.order stop) (py_bool (Json.is_default stop)).

Definition route_row_statement (from_id : Z) (city : Json.City) (stop : Json.Stop)
  : Statement :=
  InsertOrIgnoreRoute (Some from_id) (Some (Json.id_city city)) None (Some (Json.id stop)).

(** The statements one destination-city record gives rise to, in the order
    the three loops of [process_city_data] send them. *)
Definition city_statements (from_id : Z) (city : Json.City) : list Statement :=
  city_row_statement city
  :: (stop_row_statement city <$> Json.stops city)
  ++ (route_row_statement from_id city <$> Json.stops city).

Definition statements (cd : CityData) : list Statement :=
  data cd ≫= city_statements (city_id cd).

(** The statements a journal records as executed, and its transaction starts. *)
Definition executed (j : list Event) : list Statement :=
  omap (fun ev => match ev with Exec s => Some s | _ => None end) j.

Definition begins (j : list Event) : list unit :=
  omap (fun ev => match ev with Begin => Some tt | _ => None end) j.

(** The logical key of a route. *)
Definition route_key (r : Tbl.Route) : option Z * option Z * option Z * option Z :=
  (Tbl.from_city_id r, Tbl.to_city_id r, Tbl.from_stop_id r, Tbl.to_stop_id r).

(** The row a statement writes is in the database. *)
Definition written (s : Statement) (d : Database) : Prop :=
  match s with
  | InsertOrReplaceCity i _ _ _ _ => is_Some (cities d !! i)
  | InsertOrReplaceStop i _ _ _ _ _ _ => is_Some (stops d !! i)
  | InsertOrIgnoreRoute fc tc fs ts =>
      ∃ r, r ∈ routes d ∧ route_key r = (fc, tc, fs, ts)
  end.

(** No row is ever deleted: keys stay, routes are only appended. *)
Definition grows (d d' : Database) : Prop :=
  schema d' = schema d ∧
  dom (cities d) ⊆ dom (cities d') ∧
  dom (stops d) ⊆ dom (stops d') ∧
  routes d `prefix_of` routes d'.

(** What a connection keeps while statements run on it. *)
Definition continues (conn conn' : Connection) : Prop :=
  foreign_keys conn' = foreign_keys conn ∧
  committed conn' = committed conn ∧
  grows (db conn) (db conn') ∧
  journal conn `prefix_of` journal conn' ∧
  (in_transaction conn = true → in_transaction conn' = true).

(** A journal has as many transaction starts as the connection has open
    transactions: none or one. *)
Definition one_transaction (conn : Connection) : Prop :=
  length (begins (journal conn)) = if in_transaction conn then 1%nat else 0%nat.

(** The data outcomes of a run, in arrival order. *)
Definition data_outcomes (upstream : Z → Response) (arrival : list Z) : list CityData :=
  omap (fun cid => (fetch_city_data cid (upstream cid)).1) arrival.

(** The parameters of a statement satisfy the NOT NULL constraints. *)
Definition well_formed (s : Statement) : bool :=
  match s with
  | InsertOrReplaceCity _ nm _ _ _ => bool_decide (is_Some nm)
  | InsertOrReplaceStop _ _ t _ _ _ _ => bool_decide (is_Some t)
  | InsertOrIgnoreRoute _ _ _ _ => true
  end.


(** The connection opened by [populate_database] never enforces foreign
    keys, and its view is the file until its first statement. *)
Definition unenforced (conn : Connection) : Prop := foreign_keys conn = false.

Definition clean (conn : Connection) : Prop :=
  in_transaction conn = false → db conn = committed conn.

(** The rows of [routes] with a given logical key. *)
Definition routes_with (k : option Z * option Z * option Z * option Z) (d : Database)
  : list Tbl.Route :=
  filter (fun r => route_key r = k) (routes d).

(** The file after one run, and after a second run, on the same answers. *)
Definition first_run (upstream : Z → Response) (arrival : list Z) (file : Database)
  : Database :=
  (populate_database upstream arrival file).1.

Definition second_run (upstream : Z → Response) (arrival : list Z) (file : Database)
  : Database :=
  (populate_database upstream arrival (first_run upstream arrival file)).1.



(** ** The effect of a run, statement by statement *)

(** The statements of a list up to the first one that violates a NOT NULL
    constraint. *)
Fixpoint accepted (l : list Statement) : list Statement :=
  match l with
  | [] => []
  | s :: l' => if well_formed s then s :: accepted l' else []
  end.

(** A statement on a database without enforcement; one that fails changes
    nothing. *)
Definition apply_statement (s : Statement) (d : Database) : Database :=
  match run_statement false s d with
  | inr d' => d'
  | inl _ => d
  end.

Definition replay (l : list Statement) (d : Database) : Database :=
  foldl (fun d s => apply_statement s d) d l.

(** The row or key a statement writes. *)
Definition city_write (s : Statement) : option (Z * Tbl.City) :=
  match s with
  | InsertOrReplaceCity i (Some n) sl wp tp =>
      Some (i, {| Tbl.name := n; Tbl.slug := sl; Tbl.is_waypoint := wp; Tbl.is_top := tp |})
  | _ => None
  end.

Definition stop_write (s : Statement) : option (Z * Tbl.Stop) :=
  match s with
  | InsertOrReplaceStop i c (Some t) g p o df =>
      Some (i, {| Tbl.city_id := c; Tbl.title := t; Tbl.gps := g; Tbl.photo_url := p;
                  Tbl.order_num := o; Tbl.is_default := df |})
  | _ => None
  end.

Definition route_write (s : Statement) : option (option Z * option Z * option Z * option Z) :=
  match s with
  | InsertOrIgnoreRoute fc tc fs ts => Some (fc, tc, fs, ts)
  | _ => None
  end.

(** Overwrite-by-key, in order. *)
Definition upserts {V} (w : list (Z * V)) (m : gmap Z V) : gmap Z V :=
  foldl (fun m kv => <[kv.1 := kv.2]> m) m w.

(** The statements a run executes on a connection without enforcement. *)
Definition run_statements (upstream : Z → Response) (arrival : list Z) : list Statement :=
  data_outcomes upstream arrival ≫= (fun cd => accepted (statements cd)).

(** ** The log of a run *)

(** The identifier a record is about. *)
Definition about (r : LogRecord) : option Z :=
  match r with
  | ErrorFetching cid _ => Some cid
  | Processed cid => Some cid
  | ErrorProcessing cid _ => Some cid
  | Completed => None
  end.

(** The transport failures a log reports, and the requests of a run that
    fail. *)
Definition fetch_errors (log : list LogRecord) : list (Z * string) :=
  omap (fun r => match r with ErrorFetching cid e => Some (cid, e) | _ => None end) log.

Definition failed_requests (upstream : Z → Response) (arrival : list Z)
  : list (Z * string) :=
  omap (fun cid => match upstream cid with
                   | RequestException e => Some (cid, e)
                   | Decoded _ _ => None
                   end) arrival.

(** The City row written from a destination-city record, and the keys of the
    routes written for it. *)
Definition city_row (city : Json.City) : option Tbl.City :=
  n ← Json.city_name city;
  Some {| Tbl.name := n; Tbl.slug := Json.city_slug city;
          Tbl.is_waypoint := py_bool (Json.is_waypoint city);
          Tbl.is_top := py_bool (Json.is_top city) |}.

Definition route_keys (cd : CityData) : list (option Z * option Z * option Z * option Z) :=
  data cd ≫= fun city =>
    (fun stop => (Some (city_id cd), Some (Json.id_city city), None, Some (Json.id stop)))
      <$> Json.stops city.

(** ** [analyze_database] *)

(** [COUNT(s.id)] of the stops joined to city [k], and [COUNT( * )] of the
    routes joined to it as their origin. *)
Definition stops_in (d : Database) (k : Z) : nat :=
  length (filter (fun kv => Tbl.city_id kv.2 = Some k) (map_to_list (stops d))).

Definition routes_from (d : Database) (k : Z) : nat :=
  length (filter (fun r => Tbl.from_city_id r = Some k) (routes d)).

(** [FROM cities c JOIN ... GROUP BY c.id]: one group per city that has at
    least one joined row, with the city's name and the count. *)
Definition grouped (count : Z → nat) (d : Database) : list (string * nat) :=
  omap (fun kc => if decide (count kc.1 = 0%nat) then None
                  else Some (Tbl.name kc.2, count kc.1))
       (map_to_list (cities d)).

(** [ORDER BY count DESC LIMIT 5] *)
Definition count_desc (a b : string * nat) : Prop := (b.2 ≤ a.2)%nat.

#[global] Instance count_desc_dec : RelDecision count_desc.
Proof. intros a b. unfold count_desc. apply _. Defined.

Definition top5 (groups : list (string * nat)) : list (string * nat) :=
  take 5 (merge_sort count_desc groups).

Definition top_stops (d : Database) : list (string * nat) :=
  top5 (grouped (stops_in d) d).

Definition top_connected (d : Database) : list (string * nat) :=
  top5 (grouped (routes_from d) d).

(** The line feed that opens two of the printed headers. *)
Definition nl : string := String "010"%char EmptyString.

(** What [analyze_database] prints, one string per call of [print]. *)
Definition analyze_database (d : Database) : list string :=
  [ "Database Analysis:";
    "-----------------";
    "Total cities: " +:+ pretty (size (cities d));
    "Total stops: " +:+ pretty (size (stops d));
    "Total routes: " +:+ pretty (length (routes d));
    nl +:+ "Top 5 cities with most stops:" ]
  ++ ((fun cc => "  " +:+ cc.1 +:+ ": " +:+ pretty cc.2 +:+ " stops") <$> top_stops d)
  ++ [ nl +:+ "Top 5 most connected cities:" ]
  ++ ((fun cc => "  " +:+ cc.1 +:+ ": " +:+ pretty cc.2 +:+ " routes") <$> top_connected d).

(** [top] holds at most five of the groups, in descending order of count,
    and no group left out has a larger count than one that is in. *)
Definition largest_five (top groups : list (string * nat)) : Prop :=
  (length top ≤ 5)%nat ∧
  StronglySorted count_desc top ∧
  ∃ rest, top ++ rest ≡ₚ groups ∧
          ∀ x y, x ∈ top → y ∈ rest → (y.2 ≤ x.2)%nat.

(** ** The script

    The records the script itself logs, beside those of [populate_database]. *)
Inductive ScriptRecord :=
| Population (r : LogRecord)
| RouteSummaryExported
| OptimizationStarted
| OptimizationCompleted
| TotalExecutionTime
| CriticalError (e : Exn).

(** What the script acts on: the database file, [route_summary.json] when it
    has been written, the log file and the standard output. *)
Record Machine := {
  disk : Database;
  route_summary : option (list Summary.Route);
  logged : list ScriptRecord;
  stdout : list string
}.

(** [optimize_database]: [PRAGMA optimize], [ANALYZE] and [VACUUM] leave the
    rows of the three tables and the declared objects as they are (the
    statistics SQLite keeps for itself are not represented); two records are
    logged. *)
Definition optimize_database (m : Machine) : Machine :=
  {| disk := disk m; route_summary := route_summary m;
     logged := logged m ++ [OptimizationStarted; OptimizationCompleted];
     stdout := stdout m |}.

(** The steps the two main blocks share: [create_database()],
    [populate_database()], [export_route_summary()].  An exception of
    [create_database] leaves the [try] at once. *)
Definition pipeline (upstream : Z → Response) (arrival : list Z) (m : Machine)
  : Exn + Machine :=
  match create_database (disk m) with
  | (inl e, d) =>
      inl e
  | (inr _, d) =>
      let '(d', log) := populate_database upstream arrival d in
      inr {| disk := d'; route_summary := Some (export_route_summary d');
             logged := logged m ++ (Population <$> log) ++ [RouteSummaryExported];
             stdout := stdout m |}
  end.

(** What a failed [create_database] leaves: the file as far as the script
    got, and one record at level CRITICAL. *)
Definition critical (e : Exn) (m : Machine) : Machine :=
  {| disk := (create_database (disk m)).2; route_summary := route_summary m;
     logged := logged m ++ [CriticalError e]; stdout := stdout m |}.

Definition log_time (m : Machine) : Machine :=
  {| disk := disk m; route_summary := route_summary m;
     logged := logged m ++ [TotalExecutionTime]; stdout := stdout m |}.

Definition print_analysis (m : Machine) : Machine :=
  {| disk := disk m; route_summary := route_summary m; logged := logged m;
     stdout := stdout m ++ analyze_database (disk m) |}.

(** The first [if __name__ == "__main__"] block. *)
Definition first_block (upstream : Z → Response) (arrival : list Z) (m : Machine)
  : Machine :=
  match pipeline upstream arrival m with
  | inl e => critical e m
  | inr m' => log_time m'
  end.

(** The second one, at the end of the file. *)
Definition second_block (upstream : Z → Response) (arrival : list Z) (m : Machine)
  : Machine :=
  match pipeline upstream arrival m with
  | inl e => critical e m
  | inr m' => log_time (optimize_database (print_analysis m'))
  end.

(** Running the file: both blocks, one after the other, each with the answers
    and the arrival order of its own pass. *)
Definition script (upstream1 : Z → Response) (arrival1 : list Z)
    (upstream2 : Z → Response) (arrival2 : list Z) (m : Machine) : Machine :=
  second_block upstream2 arrival2 (first_block upstream1 arrival1 m).

Definition fresh_machine : Machine :=
  {| disk := empty_database; route_summary := None; logged := []; stdout := [] |}.



(** The objects the script of [create_database] declares. *)
Definition declared_objects : list (string * SchemaObject) :=
  [ ("cities", Table ["id"; "name"; "slug"; "is_waypoint"; "is_top"]);
    ("stops", Table ["id"; "city_id"; "title"; "gps"; "photo_url"; "order_num";
                     "is_default"]);
    ("routes", Table ["id"; "from_city_id"; "to_city_id"; "from_stop_id"; "to_stop_id"]);
    ("idx_cities_slug", Index "cities" ["slug"]);
    ("idx_stops_city_id", Index "stops" ["city_id"]);
    ("idx_routes_from_to", Index "routes" ["from_city_id"; "to_city_id"]) ].

(** A file in which the name [cities] is taken by an index. *)
Definition clashing_database : Database :=
  {| schema := {[ "cities" := Index "towns" ["name"] ]}; cities := ∅; stops := ∅;
     routes := []; sqlite_sequence := 0 |}.

(** ** Concrete inputs

    The scenario of the specification: origin city 5 answers with one
    destination city, Riga, which has one stop; every other request times
    out. *)
Definition central : Json.Stop :=
  {| Json.id := 100; Json.title := Some "Central"; Json.gps := Some "56.9,24.1";
     Json.photo_url := None; Json.order := Some 1; Json.is_default := 1 |}.

Definition riga : Json.City :=
  {| Json.id_city := 9; Json.city_name := Some "Riga"; Json.city_slug := Some "riga";
     Json.is_waypoint := 0; Json.is_top := 1; Json.stops := [central] |}.

Definition riga_upstream (cid : Z) : Response :=
  if (cid =? 5)%Z then Decoded "success" [riga] else RequestException "timeout".

(** A second record under Riga's identifier, with another name and slug and
    no stop. *)
Definition riga_renamed : Json.City :=
  {| Json.id_city := 9; Json.city_name := Some "Riga, Latvia";
     Json.city_slug := Some "riga-lv"; Json.is_waypoint := 1; Json.is_top := 0;
     Json.stops := [] |}.



(** Origin city 5 answers with a result that is not a success. *)
Definition refusing_upstream (cid : Z) : Response :=
  if (cid =? 5)%Z then Decoded "error" [] else RequestException "timeout".

(** Origin city 5 answers with the Riga record twice. *)
Definition repeated_upstream (cid : Z) : Response :=
  if (cid =? 5)%Z then Decoded "success" [riga; riga]
  else RequestException "timeout".

(** The key of the route from origin city 5 to stop 100 of Riga. *)
Definition riga_route : option Z * option Z * option Z * option Z :=
  (Some 5, Some 9, None, Some 100).

(** Two origin cities that are each other's destination: 9 answers with
    Minsk (city 5), 5 answers with Riga (city 9). *)
Definition station : Json.Stop :=
  {| Json.id := 50; Json.title := Some "Station"; Json.gps := None;
     Json.photo_url := None; Json.order := Some 1; Json.is_default := 1 |}.

Definition minsk : Json.City :=
  {| Json.id_city := 5; Json.city_name := Some "Minsk"; Json.city_slug := Some "minsk";
     Json.is_waypoint := 0; Json.is_top := 1; Json.stops := [station] |}.

Definition two_way_upstream (cid : Z) : Response :=
  if (cid =? 5)%Z then Decoded "success" [riga]
  else if (cid =? 9)%Z then Decoded "success" [minsk]
  else RequestException "timeout".

Definition two_way_store : Database :=
  (populate_database two_way_upstream submitted empty_database).1.

(** * Properties *)

(** ** Loops and statement lists *)

Lemma bind_eq {A B} (m : M A) (k : A → M B) conn :
  bind m k conn =
  match m conn with (inr a, c) => k a c | (inl e, c) => (inl e, c) end.
Proof. reflexivity. Qed.

Lemma for_each_app {A} (l1 l2 : list A) body conn :
  for_each (l1 ++ l2) body conn = (for_each l1 body ;; for_each l2 body) conn.
Proof.
  revert conn. induction l1 as [|x l1 IH]; intros conn; simpl.
  - reflexivity.
  - rewrite !bind_eq. destruct (body x conn) as [[e|[]] c]; [reflexivity|].
    rewrite IH. reflexivity.
Qed.

Lemma for_each_fmap {A B} (g : A → B) (l : list A) body conn :
  for_each (g <$> l) body conn = for_each l (fun x => body (g x)) conn.
Proof.
  revert conn. induction l as [|x l IH]; intros conn; simpl; [reflexivity|].
  rewrite !bind_eq. destruct (body (g x) conn) as [[e|[]] c]; [reflexivity|]. apply IH.
Qed.

Lemma process_city_data_statements cd conn :
  process_city_data cd conn = for_each (statements cd) execute conn.
Proof.
  unfold process_city_data, statements. generalize (city_id cd) as from_id.
  intros from_id. revert conn.
  induction (data cd) as [|city cs IH]; intros conn; [reflexivity|].
  cbn [for_each mbind list_bind]. rewrite for_each_app, !bind_eq.
  unfold city_statements at 1. cbn [for_each]. rewrite !bind_eq.
  destruct (execute _ conn) as [[e|[]] c1]; [reflexivity|].
  rewrite for_each_app, !bind_eq, !for_each_fmap.
  destruct (for_each (Json.stops city) _ c1) as [[e|[]] c2]; [reflexivity|].
  rewrite for_each_fmap.
  destruct (for_each (Json.stops city) _ c2) as [[e|[]] c3]; [reflexivity|].
  apply IH.
Qed.

(** ** What one statement does *)

#[global] Instance grows_preorder : PreOrder grows.
Proof.
  split.
  - intros d. unfold grows. done.
  - intros d1 d2 d3 (H1 & H2 & H3 & H4) (H1' & H2' & H3' & H4'). unfold grows.
    split; [congruence|]. split; [set_solver|]. split; [set_solver|].
    by etrans.
Qed.

#[global] Instance continues_preorder : PreOrder continues.
Proof.
  split.
  - intros c. unfold continues. done.
  - intros c1 c2 c3 (H1 & H2 & H3 & H4 & H5) (H1' & H2' & H3' & H4' & H5').
    unfold continues. split; [congruence|]. split; [congruence|].
    split; [by etrans|]. split; [by etrans|]. auto.
Qed.

Lemma run_statement_grows fk s d d' :
  run_statement fk s d = inr d' → grows d d'.
Proof.
  unfold run_statement, grows. intros H.
  destruct s as [i [n|] sl wp tp|i c [t|] g p o df|fc tc fs ts]; try discriminate.
  - inversion H; subst; clear H. cbn. rewrite dom_insert_L.
    split; [done|]. split; [set_solver|]. done.
  - destruct (_ && _); [discriminate|]. inversion H; subst; clear H. cbn.
    rewrite dom_insert_L. split; [done|]. split; [done|]. split; [set_solver|]. done.
  - destruct (_ && _); [discriminate|]. inversion H; subst; clear H. cbn.
    split; [done|]. split; [done|]. split; [done|]. by apply prefix_app_r.
Qed.

Lemma run_statement_written fk s d d' :
  run_statement fk s d = inr d' → written s d'.
Proof.
  unfold run_statement, written. intros H.
  destruct s as [i [n|] sl wp tp|i c [t|] g p o df|fc tc fs ts]; try discriminate.
  - inversion H; subst; clear H. cbn. rewrite lookup_insert_eq. by eexists.
  - destruct (_ && _); [discriminate|]. inversion H; subst; clear H. cbn.
    rewrite lookup_insert_eq. by eexists.
  - destruct (_ && _); [discriminate|]. inversion H; subst; clear H. cbn.
    eexists. split; [apply elem_of_app; right; apply list_elem_of_singleton; reflexivity|].
    reflexivity.
Qed.

Lemma written_grows s d d' : grows d d' → written s d → written s d'.
Proof.
  intros (_ & Hc & Hs & Hr). destruct s; cbn.
  - rewrite <- !elem_of_dom. set_solver.
  - rewrite <- !elem_of_dom. set_solver.
  - intros (r & Hin & Hk). exists r. split; [|done].
    destruct Hr as [k ->]. apply elem_of_app. by left.
Qed.

(** A route insert that is let through adds exactly one row, whatever rows
    are there already. *)
Lemma run_statement_route_appends fk fc tc fs ts d d' :
  run_statement fk (InsertOrIgnoreRoute fc tc fs ts) d = inr d' →
  ∃ r, routes d' = routes d ++ [r] ∧ route_key r = (fc, tc, fs, ts) ∧
       Tbl.id r = next_rowid d.
Proof.
  cbn. destruct (_ && _); [discriminate|]. intros H. inversion H; subst; clear H.
  eexists. cbn. done.
Qed.

(** Without enforcement, whether a statement fails depends on its parameters
    only. *)
Lemma run_statement_unenforced s d :
  well_formed s = true ↔ ∃ d', run_statement false s d = inr d'.
Proof.
  destruct s as [i [n|] sl wp tp|i c [t|] g p o df|fc tc fs ts]; cbn;
    split; try done; try (intros _; by eexists); try (by intros [? ?]).
Qed.

(** ** [execute] *)

Lemma begin_if_needed_continues conn : continues conn (begin_if_needed conn).
Proof.
  unfold begin_if_needed. destruct (in_transaction conn) eqn:E; [reflexivity|].
  unfold continues; cbn. split; [done|]. split; [done|]. split; [reflexivity|].
  split; [by apply prefix_app_r|]. done.
Qed.

Lemma begin_if_needed_open conn : in_transaction (begin_if_needed conn) = true.
Proof. unfold begin_if_needed. by destruct (in_transaction conn) eqn:E. Qed.

Lemma execute_continues s conn : continues conn (execute s conn).2.
Proof.
  unfold execute. etrans; [apply begin_if_needed_continues|].
  destruct (run_statement _ s _) as [e|d] eqn:E; cbn; [reflexivity|].
  unfold continues; cbn. split; [done|]. split; [done|].
  split; [by eapply run_statement_grows|]. split; [by apply prefix_app_r|]. done.
Qed.

Lemma execute_open s conn : in_transaction (execute s conn).2 = true.
Proof.
  unfold execute. destruct (run_statement _ s _); cbn; apply begin_if_needed_open.
Qed.

Lemma begins_app j1 j2 : begins (j1 ++ j2) = begins j1 ++ begins j2.
Proof. apply omap_app. Qed.

Lemma executed_app j1 j2 : executed (j1 ++ j2) = executed j1 ++ executed j2.
Proof. apply omap_app. Qed.

Lemma begin_if_needed_one_transaction conn :
  one_transaction conn → one_transaction (begin_if_needed conn).
Proof.
  unfold one_transaction, begin_if_needed.
  destruct (in_transaction conn) eqn:E; [by rewrite E|].
  cbn. rewrite begins_app, length_app. cbn. lia.
Qed.

Lemma begin_if_needed_executed conn :
  executed (journal (begin_if_needed conn)) = executed (journal conn).
Proof.
  unfold begin_if_needed. destruct (in_transaction conn); [done|].
  cbn. rewrite executed_app. cbn. by rewrite app_nil_r.
Qed.

Lemma execute_one_transaction s conn :
  one_transaction conn → one_transaction (execute s conn).2.
Proof.
  intros H. apply begin_if_needed_one_transaction in H. unfold execute.
  destruct (run_statement _ s _); cbn; [done|].
  unfold one_transaction in *; cbn. rewrite begins_app, length_app. cbn. lia.
Qed.

(** The three possible shapes of one [execute]. *)
Lemma execute_inr s conn conn' :
  execute s conn = (inr tt, conn') →
  run_statement (foreign_keys conn) s (db conn) = inr (db conn') ∧
  executed (journal conn') = executed (journal conn) ++ [s].
Proof.
  unfold execute. pose proof (begin_if_needed_continues conn) as (Hfk & _ & Hg & _).
  pose proof (begin_if_needed_executed conn) as Hj.
  assert (db (begin_if_needed conn) = db conn) as Hdb
    by (unfold begin_if_needed; by destruct (in_transaction conn)).
  rewrite Hfk, Hdb. destruct (run_statement _ s _) as [e|d]; [discriminate|].
  intros H. inversion H; subst; clear H. cbn.
  split; [done|]. rewrite executed_app, Hj. done.
Qed.

Lemma execute_inl s conn e conn' :
  execute s conn = (inl e, conn') →
  run_statement (foreign_keys conn) s (db conn) = inl e ∧
  db conn' = db conn ∧
  executed (journal conn') = executed (journal conn).
Proof.
  unfold execute. pose proof (begin_if_needed_continues conn) as (Hfk & _ & Hg & _).
  pose proof (begin_if_needed_executed conn) as Hj.
  assert (db (begin_if_needed conn) = db conn) as Hdb
    by (unfold begin_if_needed; by destruct (in_transaction conn)).
  rewrite Hfk, Hdb. destruct (run_statement _ s _) as [e'|d]; [|discriminate].
  intros H. inversion H; subst; clear H. done.
Qed.

(** ** A list of statements sent one after the other *)

Lemma for_each_execute l conn r conn' :
  for_each l execute conn = (r, conn') →
  ∃ sent, sent `prefix_of` l ∧
    executed (journal conn') = executed (journal conn) ++ sent ∧
    (∀ s, s ∈ sent → written s (db conn')) ∧
    continues conn conn' ∧
    (one_transaction conn → one_transaction conn') ∧
    match r with
    | inr _ => sent = l
    | inl e => ∃ s, l !! length sent = Some s ∧
                    run_statement (foreign_keys conn) s (db conn') = inl e
    end.
Proof.
  revert conn r conn'. induction l as [|s l IH]; intros conn r conn' H.
  - cbn in H. inversion H; subst; clear H. exists []. rewrite app_nil_r.
    split; [done|]. split; [done|]. split; [by intros ? ?%elem_of_nil|].
    split; [reflexivity|]. done.
  - cbn [for_each] in H. rewrite bind_eq in H.
    pose proof (execute_continues s conn) as Hc.
    pose proof (execute_one_transaction s conn) as Ho.
    destruct (execute s conn) as [[e|[]] c1] eqn:E; cbn in Hc, Ho.
    + inversion H; subst; clear H. apply execute_inl in E as (Hrun & Hdb & Hj).
      exists []. rewrite app_nil_r. split; [apply prefix_nil|]. split; [done|].
      split; [by intros ? ?%elem_of_nil|]. split; [done|]. split; [done|].
      exists s. split; [done|]. by rewrite Hdb.
    + apply execute_inr in E as (Hrun & Hj).
      apply IH in H as (sent & Hpre & Hj' & Hw & Hc' & Ho' & Hr).
      exists (s :: sent). split; [by apply prefix_cons|].
      split; [by rewrite Hj', Hj, <- app_assoc|].
      split.
      { intros s' [->|Hin]%elem_of_cons; [|by apply Hw].
        eapply written_grows; [apply Hc'|]. by eapply run_statement_written. }
      split; [by etrans|]. split; [auto|].
      destruct r as [e|?]; [|by subst].
      destruct Hr as (s' & Hl & Hrun'). exists s'. split; [done|].
      destruct Hc as (Hfk & _). by rewrite <- Hfk.
Qed.

Lemma process_city_data_spec cd conn r conn' :
  process_city_data cd conn = (r, conn') →
  ∃ sent, sent `prefix_of` statements cd ∧
    executed (journal conn') = executed (journal conn) ++ sent ∧
    (∀ s, s ∈ sent → written s (db conn')) ∧
    continues conn conn' ∧
    (one_transaction conn → one_transaction conn') ∧
    match r with
    | inr _ => sent = statements cd
    | inl e => ∃ s, statements cd !! length sent = Some s ∧
                    run_statement (foreign_keys conn) s (db conn') = inl e
    end.
Proof. rewrite process_city_data_statements. apply for_each_execute. Qed.

(** ** The coordinator's loop *)

Lemma fetch_city_data_some cid resp cd :
  (fetch_city_data cid resp).1 = Some cd →
  (fetch_city_data cid resp).2 = [] ∧
  ∃ payload, resp = Decoded "success" payload ∧ payload ≠ [] ∧
             cd = {| city_id := cid; data := payload |}.
Proof.
  destruct resp as [e|result payload]; cbn; [discriminate|].
  destruct (String.eqb_spec result "success") as [->|Hne]; cbn.
  - destruct payload as [|c cs]; cbn; [discriminate|].
    intros H. inversion H; subst; clear H. split; [done|]. by eexists.
  - discriminate.
Qed.

Lemma ingest_snoc upstream arrival cid conn :
  ingest upstream (arrival ++ [cid]) conn =
  handle_future upstream (ingest upstream arrival conn) cid.
Proof. unfold ingest. by rewrite foldl_app. Qed.

Lemma handle_future_cases upstream conn log cid :
  let f := fetch_city_data cid (upstream cid) in
  (f.1 = None ∧ handle_future upstream (conn, log) cid = (conn, log ++ f.2)) ∨
  (∃ cd conn', f.1 = Some cd ∧ process_city_data cd conn = (inr tt, conn') ∧
     handle_future upstream (conn, log) cid = (conn', log ++ [Processed cid])) ∨
  (∃ cd e conn', f.1 = Some cd ∧ process_city_data cd conn = (inl e, conn') ∧
     handle_future upstream (conn, log) cid = (conn', log ++ [ErrorProcessing cid e])).
Proof.
  intros f. unfold handle_future. fold f.
  pose proof (fetch_city_data_some cid (upstream cid)) as Hsome. fold f in Hsome.
  destruct f as [[cd|] flog]; cbn in *.
  - destruct (Hsome cd eq_refl) as [-> _]. right.
    destruct (process_city_data cd conn) as [[e|[]] conn'] eqn:E.
    + right. by exists cd, e, conn'.
    + left. by exists cd, conn'.
  - by left.
Qed.

Lemma run_statement_well_formed fk s d d' :
  run_statement fk s d = inr d' → well_formed s = true.
Proof.
  destruct s as [i [n|] sl wp tp|i c [t|] g p o df|fc tc fs ts]; cbn; try done.
Qed.

Lemma run_statement_ill_formed fk s :
  well_formed s = false → ∃ e, ∀ d, run_statement fk s d = inl e.
Proof.
  destruct s as [i [n|] sl wp tp|i c [t|] g p o df|fc tc fs ts]; cbn; try done;
    intros _; by eexists.
Qed.

(** Statements that went through satisfy the NOT NULL constraints. *)
Lemma for_each_execute_well_formed l conn r conn' :
  for_each l execute conn = (r, conn') →
  ∀ sent, executed (journal conn') = executed (journal conn) ++ sent →
  Forall (fun s => well_formed s = true) sent.
Proof.
  revert conn r conn'. induction l as [|s l IH]; intros conn r conn' H sent Hj.
  - cbn in H. inversion H; subst; clear H.
    rewrite <- (app_nil_r (executed (journal conn'))) in Hj at 1.
    apply app_inv_head in Hj. by subst.
  - cbn [for_each] in H. rewrite bind_eq in H.
    destruct (execute s conn) as [[e|[]] c1] eqn:E.
    + inversion H; subst; clear H. apply execute_inl in E as (_ & _ & Hj').
      rewrite Hj' in Hj. rewrite <- (app_nil_r (executed (journal conn))) in Hj at 1.
      apply app_inv_head in Hj. by subst.
    + apply execute_inr in E as (Hrun & Hj').
      pose proof H as H'. apply for_each_execute in H' as (sent' & _ & Hj'' & _).
      rewrite Hj'', Hj', <- app_assoc in Hj. apply app_inv_head in Hj. subst sent.
      constructor; [by eapply run_statement_well_formed|].
      by eapply IH.
Qed.

Lemma for_each_execute_clean l conn :
  clean conn → clean (for_each l execute conn).2.
Proof.
  revert conn. induction l as [|s l IH]; intros conn H; [done|].
  cbn [for_each]. rewrite bind_eq.
  pose proof (execute_open s conn) as Hopen.
  destruct (execute s conn) as [[e|[]] c1]; cbn in *.
  - intros Hf. congruence.
  - apply IH. intros Hf. congruence.
Qed.

Lemma handle_future_continues upstream conn log cid :
  continues conn (handle_future upstream (conn, log) cid).1 ∧
  (one_transaction conn → one_transaction (handle_future upstream (conn, log) cid).1) ∧
  (clean conn → clean (handle_future upstream (conn, log) cid).1).
Proof.
  destruct (handle_future_cases upstream conn log cid)
    as [[_ ->]|[(cd & c' & _ & Hp & ->)|(cd & e & c' & _ & Hp & ->)]]; cbn.
  - done.
  - pose proof (for_each_execute_clean (statements cd) conn) as Hcl.
    rewrite <- process_city_data_statements, Hp in Hcl.
    apply process_city_data_spec in Hp as (sent & _ & _ & _ & Hc & Ho & _). done.
  - pose proof (for_each_execute_clean (statements cd) conn) as Hcl.
    rewrite <- process_city_data_statements, Hp in Hcl.
    apply process_city_data_spec in Hp as (sent & _ & _ & _ & Hc & Ho & _). done.
Qed.

Lemma ingest_continues upstream arrival conn :
  continues conn (ingest upstream arrival conn).1 ∧
  (one_transaction conn → one_transaction (ingest upstream arrival conn).1) ∧
  (clean conn → clean (ingest upstream arrival conn).1).
Proof.
  induction arrival as [|cid arrival IH] using rev_ind; [done|].
  rewrite ingest_snoc. destruct (ingest upstream arrival conn) as [c log]; cbn in IH.
  destruct IH as (Hc & Ho & Hcl).
  destruct (handle_future_continues upstream c log cid) as (Hc' & Ho' & Hcl').
  split; [by etrans|]. split; auto.
Qed.

Lemma data_outcomes_snoc upstream arrival cid :
  data_outcomes upstream (arrival ++ [cid]) =
  data_outcomes upstream arrival ++
  match (fetch_city_data cid (upstream cid)).1 with Some cd => [cd] | None => [] end.
Proof. unfold data_outcomes. rewrite omap_app. cbn. by destruct (_.1). Qed.

(** The statements of a run, outcome after outcome. *)
Lemma ingest_blocks upstream arrival conn :
  ∃ blocks,
    Forall2 (fun cd block => block `prefix_of` statements cd)
      (data_outcomes upstream arrival) blocks ∧
    executed (journal (ingest upstream arrival conn).1) =
      executed (journal conn) ++ concat blocks.
Proof.
  induction arrival as [|cid arrival IH] using rev_ind.
  - exists []. cbn. split; [constructor|]. by rewrite app_nil_r.
  - destruct IH as (blocks & HF & Hj). rewrite ingest_snoc, data_outcomes_snoc.
    destruct (ingest upstream arrival conn) as [c log]; cbn in Hj.
    destruct (handle_future_cases upstream c log cid)
      as [[Hn ->]|[(cd & c' & Hs & Hp & ->)|(cd & e & c' & Hs & Hp & ->)]]; cbn.
    + exists blocks. rewrite Hn, app_nil_r. done.
    + apply process_city_data_spec in Hp as (sent & Hpre & Hj' & _).
      exists (blocks ++ [sent]). rewrite Hs. split.
      * apply Forall2_app; [done|]. by constructor.
      * rewrite Hj', Hj, concat_app. cbn. by rewrite app_nil_r, app_assoc.
    + apply process_city_data_spec in Hp as (sent & Hpre & Hj' & _).
      exists (blocks ++ [sent]). rewrite Hs. split.
      * apply Forall2_app; [done|]. by constructor.
      * rewrite Hj', Hj, concat_app. cbn. by rewrite app_nil_r, app_assoc.
Qed.

Lemma connect_invariants file :
  one_transaction (connect file) ∧ clean (connect file) ∧ unenforced (connect file).
Proof. done. Qed.

Lemma populate_database_final upstream arrival file :
  (populate_database upstream arrival file).1 =
  db (ingest upstream arrival (connect file)).1.
Proof.
  unfold populate_database, populate_connection.
  destruct (ingest_continues upstream arrival (connect file)) as (_ & _ & Hcl).
  specialize (Hcl (proj1 (proj2 (connect_invariants file)))).
  destruct (ingest upstream arrival (connect file)) as [c log]; cbn in *.
  unfold commit. destruct (in_transaction c) eqn:E; cbn; [done|].
  symmetry. by apply Hcl.
Qed.

Lemma populate_database_log upstream arrival file :
  (populate_database upstream arrival file).2 =
  (ingest upstream arrival (connect file)).2 ++ [Completed].
Proof.
  unfold populate_database, populate_connection.
  by destruct (ingest upstream arrival (connect file)) as [c log].
Qed.

(** ** Fetching *)

(** C5: a fetch task yields a data outcome, carrying the identifier and the
    decoded payload, exactly when the response decodes to [result] equal to
    "success" with a non-empty [data]; any other decoded response yields no
    outcome and no log record; a transport failure yields no outcome and one
    record at level ERROR, and no exception leaves the task. *)
Theorem fetch_city_data_outcome (cid : Z) :
  (∀ resp cd,
     (fetch_city_data cid resp).1 = Some cd ↔
     ∃ payload, resp = Decoded "success" payload ∧ payload ≠ [] ∧
                cd = {| city_id := cid; data := payload |}) ∧
  (∀ result payload,
     result ≠ "success" ∨ payload = [] →
     fetch_city_data cid (Decoded result payload) = (None, [])) ∧
  (∀ e,
     fetch_city_data cid (RequestException e) = (None, [ErrorFetching cid e]) ∧
     level (ErrorFetching cid e) = ERROR).
Proof.
  split; [|split].
  - intros resp cd. split.
    + intros H. by apply fetch_city_data_some in H as [_ H].
    + intros (payload & -> & Hne & ->). cbn.
      destruct payload; [done|]. reflexivity.
  - intros result payload [Hne| ->]; cbn.
    + apply String.eqb_neq in Hne. by rewrite Hne.
    + by rewrite andb_false_r.
  - done.
Qed.

Lemma fetch_city_data_outcome_witness :
  (fetch_city_data 5 (riga_upstream 5)).1 = Some {| city_id := 5; data := [riga] |} ∧
  fetch_city_data 7 (Decoded "error" [riga]) = (None, []).
Proof.
  split.
  - apply (proj1 (fetch_city_data_outcome 5)). exists [riga]. done.
  - apply (proj1 (proj2 (fetch_city_data_outcome 7))). left. discriminate.
Defined.

(** ** One writer *)

Lemma commit_journal conn :
  begins (journal (commit conn)) = begins (journal conn) ∧
  executed (journal (commit conn)) = executed (journal conn).
Proof.
  unfold commit. destruct (in_transaction conn); [|done]. cbn.
  rewrite begins_app, executed_app. cbn. by rewrite !app_nil_r.
Qed.

Lemma one_transaction_le conn :
  one_transaction conn → (length (begins (journal conn)) ≤ 1)%nat.
Proof. unfold one_transaction. destruct (in_transaction conn); lia. Qed.

(** C7: the writes of a run all go through the coordinator's one connection.
    After any number of handled futures the file is still what it was when
    the run started and at most one transaction has been opened; over the
    whole run at most one transaction is opened, and the statements executed
    are those of the first outcome to arrive, then those of the second, and
    so on: the statements of two outcomes are never interleaved. *)
Theorem writes_are_serialised upstream (arrival : list Z) file :
  (∀ n, let conn := (ingest upstream (take n arrival) (connect file)).1 in
        committed conn = file ∧ (length (begins (journal conn)) ≤ 1)%nat) ∧
  let conn := (populate_connection upstream arrival file).1 in
  (length (begins (journal conn)) ≤ 1)%nat ∧
  ∃ blocks,
    Forall2 (fun cd block => block `prefix_of` statements cd)
      (data_outcomes upstream arrival) blocks ∧
    executed (journal conn) = concat blocks.
Proof.
  split.
  - intros n. cbn.
    destruct (ingest_continues upstream (take n arrival) (connect file))
      as ((_ & Hc & _) & Ho & _).
    split; [done|]. apply one_transaction_le, Ho. done.
  - cbn. unfold populate_connection.
    destruct (ingest_continues upstream arrival (connect file)) as (_ & Ho & _).
    destruct (ingest_blocks upstream arrival (connect file)) as (blocks & HF & Hj).
    destruct (ingest upstream arrival (connect file)) as [c log]; cbn in *.
    destruct (commit_journal c) as [-> ->].
    split; [apply one_transaction_le, Ho; done|]. by exists blocks.
Qed.

(** ** Replaying the executed statements *)


Lemma ingest_unenforced upstream arrival conn :
  unenforced conn → unenforced (ingest upstream arrival conn).1.
Proof.
  unfold unenforced. intros H.
  destruct (ingest_continues upstream arrival conn) as ((Hfk & _) & _). congruence.
Qed.

Lemma run_statement_apply fk s d d' :
  run_statement fk s d = inr d' → apply_statement s d = d'.
Proof.
  unfold apply_statement.
  destruct s as [i [n|] sl wp tp|i c [t|] g p o df|fc tc fs ts]; cbn; try done.
  - by intros [= ->].
  - destruct (_ && _); [done|]. by intros [= ->].
  - destruct (_ && _); [done|]. by intros [= ->].
Qed.

Lemma replay_app l1 l2 d : replay (l1 ++ l2) d = replay l2 (replay l1 d).
Proof. apply foldl_app. Qed.

Lemma for_each_execute_replay l conn r conn' :
  for_each l execute conn = (r, conn') →
  ∃ sent,
    executed (journal conn') = executed (journal conn) ++ sent ∧
    sent `prefix_of` l ∧
    db conn' = replay sent (db conn) ∧
    (unenforced conn → sent = accepted l).
Proof.
  revert conn r conn'. induction l as [|s l IH]; intros conn r conn' H.
  - cbn in H. inversion H; subst; clear H. exists []. by rewrite app_nil_r.
  - cbn [for_each] in H. rewrite bind_eq in H.
    pose proof (execute_continues s conn) as (Hfk & _).
    destruct (execute s conn) as [[e|[]] c1] eqn:E; cbn in Hfk.
    + inversion H; subst; clear H. apply execute_inl in E as (Hrun & Hdb & Hj).
      exists []. rewrite app_nil_r. split; [done|]. split; [apply prefix_nil|].
      split; [done|]. intros Hun. unfold unenforced in Hun. rewrite Hun in Hrun.
      cbn. destruct (well_formed s) eqn:Ewf; [|done].
      apply (run_statement_unenforced s (db conn)) in Ewf as [d' Hd']. congruence.
    + apply execute_inr in E as (Hrun & Hj).
      apply IH in H as (sent & Hj' & Hpre & Hdb & Hacc).
      exists (s :: sent). split; [by rewrite Hj', Hj, <- app_assoc|].
      split; [by apply prefix_cons|].
      split; [cbn; by rewrite (run_statement_apply _ _ _ _ Hrun)|].
      intros Hun. cbn. rewrite (run_statement_well_formed _ _ _ _ Hrun).
      f_equal. apply Hacc. unfold unenforced in *. congruence.
Qed.

Lemma run_statements_snoc upstream arrival cid :
  run_statements upstream (arrival ++ [cid]) =
  run_statements upstream arrival ++
  match (fetch_city_data cid (upstream cid)).1 with
  | Some cd => accepted (statements cd)
  | None => []
  end.
Proof.
  unfold run_statements. rewrite data_outcomes_snoc, bind_app.
  destruct (_.1); cbn; by rewrite ?app_nil_r.
Qed.

Lemma ingest_replay upstream arrival conn :
  unenforced conn →
  db (ingest upstream arrival conn).1 = replay (run_statements upstream arrival) (db conn).
Proof.
  intros Hun. induction arrival as [|cid arrival IH] using rev_ind; [done|].
  rewrite ingest_snoc, run_statements_snoc, replay_app, <- IH.
  pose proof (ingest_unenforced upstream arrival conn Hun) as Hun'.
  destruct (ingest upstream arrival conn) as [c log]; cbn [fst snd] in *.
  destruct (handle_future_cases upstream c log cid)
    as [[Hn ->]|[(cd & c' & Hs & Hp & ->)|(cd & e & c' & Hs & Hp & ->)]];
    cbn [fst snd].
  - by rewrite Hn.
  - rewrite Hs. rewrite process_city_data_statements in Hp.
    apply for_each_execute_replay in Hp as (sent & _ & _ & -> & Hacc).
    by rewrite (Hacc Hun').
  - rewrite Hs. rewrite process_city_data_statements in Hp.
    apply for_each_execute_replay in Hp as (sent & _ & _ & -> & Hacc).
    by rewrite (Hacc Hun').
Qed.

Lemma first_run_replay upstream arrival file :
  first_run upstream arrival file = replay (run_statements upstream arrival) file.
Proof.
  unfold first_run. rewrite populate_database_final. by apply ingest_replay.
Qed.

(** ** A failing outcome *)







Lemma upserts_union {V} (w : list (Z * V)) (m : gmap Z V) :
  upserts w m = list_to_map (reverse w) ∪ m.
Proof.
  unfold upserts. revert m. induction w as [|[k v] w IH]; intros m.
  - cbn. by rewrite (left_id_L ∅ (∪)).
  - cbn [foldl fst snd]. rewrite IH, reverse_cons, list_to_map_app.
    rewrite <- (assoc_L (∪)). f_equal.
    rewrite list_to_map_cons, list_to_map_nil.
    by rewrite insert_empty, <- insert_union_singleton_l.
Qed.

Lemma upserts_twice {V} (w : list (Z * V)) (m : gmap Z V) :
  upserts w (upserts w m) = upserts w m.
Proof. by rewrite !upserts_union, (assoc_L (∪)), (idemp_L (∪)). Qed.

Lemma replay_tables l d :
  schema (replay l d) = schema d ∧
  cities (replay l d) = upserts (omap city_write l) (cities d) ∧
  stops (replay l d) = upserts (omap stop_write l) (stops d) ∧
  route_key <$> routes (replay l d) = (route_key <$> routes d) ++ omap route_write l.
Proof.
  revert d. induction l as [|s l IH]; intros d.
  - cbn. by rewrite app_nil_r.
  - change (replay (s :: l) d) with (replay l (apply_statement s d)).
    destruct (IH (apply_statement s d)) as (-> & -> & -> & ->). clear IH.
    unfold apply_statement.
    destruct s as [i [n|] sl wp tp|i c [t|] g p o df|fc tc fs ts]; cbn; try done.
    rewrite fmap_app. cbn. by rewrite <- app_assoc.
Qed.

Lemma upserts_dom {V} (w : list (Z * V)) (m : gmap Z V) :
  dom (upserts w m) = dom m ∪ list_to_set w.*1.
Proof.
  rewrite upserts_union, dom_union_L, dom_list_to_map_L. apply set_eq. intros k.
  rewrite !elem_of_union, !elem_of_list_to_set, fmap_reverse, elem_of_reverse. tauto.
Qed.

(** The row found under a key that a list of writes covers is one of them. *)
Lemma upserts_lookup {V} (w : list (Z * V)) (m : gmap Z V) k :
  k ∈ w.*1 → ∃ v, upserts w m !! k = Some v ∧ (k, v) ∈ w.
Proof.
  intros Hk. rewrite upserts_union.
  destruct ((list_to_map (reverse w) : gmap Z V) !! k) as [v|] eqn:E.
  - exists v. split; [apply lookup_union_Some_l; exact E|].
    apply elem_of_list_to_map_2 in E. rewrite elem_of_reverse in E. exact E.
  - apply not_elem_of_list_to_map_2 in E. rewrite fmap_reverse, elem_of_reverse in E.
    done.
Qed.

(** ** Stops and the city they are nested under *)

Lemma city_statements_stop from_id city i sid c t g p o df :
  city_statements from_id city !! i = Some (InsertOrReplaceStop sid c t g p o df) →
  (0 < i)%nat ∧
  ∃ stop, stop ∈ Json.stops city ∧
          InsertOrReplaceStop sid c t g p o df = stop_row_statement city stop.
Proof.
  unfold city_statements. destruct i as [|i]; cbn; [discriminate|].
  intros [H|[_ H]]%lookup_app_Some.
  - apply list_lookup_fmap_Some in H as (stop & Hl & Heq).
    split; [lia|]. exists stop. split; [|done]. by eapply list_elem_of_lookup_2.
  - apply list_lookup_fmap_Some in H as (stop & Hl & Heq). discriminate.
Qed.

Lemma statements_stop from_id (l : list Json.City) i sid c t g p o df :
  (l ≫= city_statements from_id) !! i = Some (InsertOrReplaceStop sid c t g p o df) →
  ∃ city stop j,
    city ∈ l ∧ stop ∈ Json.stops city ∧
    InsertOrReplaceStop sid c t g p o df = stop_row_statement city stop ∧
    (j < i)%nat ∧ (l ≫= city_statements from_id) !! j = Some (city_row_statement city).
Proof.
  revert i. induction l as [|city l IH]; intros i; [done|].
  rewrite bind_cons. intros [H|[Hge H]]%lookup_app_Some.
  - apply city_statements_stop in H as (Hpos & stop & Hin & Heq).
    exists city, stop, 0%nat. split; [by left|]. done.
  - apply IH in H as (city' & stop & j & Hin & Hin' & Heq & Hlt & Hl).
    exists city', stop, (length (city_statements from_id city) + j)%nat.
    split; [by right|]. split; [done|]. split; [done|]. split; [lia|].
    rewrite lookup_app_r by lia. rewrite <- Hl. f_equal. lia.
Qed.

(** C10: every stop statement executed for an outcome is the one built from
    a stop record and the destination-city record it is nested under: the
    [city_id] it writes is that record's [id_city], and the statement that
    writes this City row was executed earlier for the same outcome.  So, once
    the outcome has been handled, the Stop row of every stop it wrote carries
    the [id_city] of a destination-city record of that outcome that lists the
    stop, and the City row with that id is in the store. *)
Theorem stop_rows_belong_to_their_city (cd : CityData) (conn : Connection) :
  let conn' := (process_city_data cd conn).2 in
  ∃ sent,
    executed (journal conn') = executed (journal conn) ++ sent ∧
    (∀ i sid c t g p o df,
       sent !! i = Some (InsertOrReplaceStop sid c t g p o df) →
       ∃ city stop,
         city ∈ data cd ∧ stop ∈ Json.stops city ∧
         InsertOrReplaceStop sid c t g p o df = stop_row_statement city stop ∧
         c = Some (Json.id_city city) ∧
         (∃ j, (j < i)%nat ∧ sent !! j = Some (city_row_statement city)) ∧
         is_Some (cities (db conn') !! Json.id_city city)) ∧
    (∀ sid,
       sid ∈ (omap stop_write sent).*1 →
       ∃ row city stop,
         stops (db conn') !! sid = Some row ∧
         city ∈ data cd ∧ stop ∈ Json.stops city ∧ Json.id stop = sid ∧
         Tbl.city_id row = Some (Json.id_city city) ∧
         is_Some (cities (db conn') !! Json.id_city city)).
Proof.
  cbn. destruct (process_city_data cd conn) as [r conn'] eqn:E.
  pose proof E as E'. rewrite process_city_data_statements in E'.
  apply for_each_execute_replay in E' as (sent' & Hj' & _ & Hdb & _).
  apply process_city_data_spec in E as (sent & Hpre & Hj & Hw & _).
  rewrite Hj in Hj'. apply app_inv_head in Hj'. subst sent'. cbn.
  assert (∀ i sid c t g p o df,
            sent !! i = Some (InsertOrReplaceStop sid c t g p o df) →
            ∃ city stop,
              city ∈ data cd ∧ stop ∈ Json.stops city ∧
              InsertOrReplaceStop sid c t g p o df = stop_row_statement city stop ∧
              c = Some (Json.id_city city) ∧
              (∃ j, (j < i)%nat ∧ sent !! j = Some (city_row_statement city)) ∧
              is_Some (cities (db conn') !! Json.id_city city)) as Hstmt.
  { intros i sid c t g p o df Hi.
    pose proof (prefix_lookup_Some _ _ _ _ Hi Hpre) as Hi'.
    apply statements_stop in Hi' as (city & stop & j & Hin & Hin' & Heq & Hlt & Hl).
    exists city, stop. split; [done|]. split; [done|]. split; [done|].
    split; [by inversion Heq|].
    assert (sent !! j = Some (city_row_statement city)) as Hsj.
    { rewrite (prefix_lookup_lt sent (statements cd) j); [done| |done].
      apply lookup_lt_Some in Hi. lia. }
    split; [by exists j|].
    apply (Hw (city_row_statement city)). by eapply list_elem_of_lookup_2. }
  exists sent. split; [done|]. split; [done|].
  intros sid Hsid. destruct (replay_tables sent (db conn)) as (_ & _ & Hstops & _).
  rewrite Hdb, Hstops.
  destruct (upserts_lookup _ (stops (db conn)) sid Hsid) as (row & Hrow & Hin).
  apply list_elem_of_omap in Hin as (s & Hs & Hwrite).
  apply list_elem_of_lookup_1 in Hs as [i Hi].
  destruct s as [| i' c [t|] g p o df |]; try discriminate.
  cbn in Hwrite. inversion Hwrite; subst; clear Hwrite.
  destruct (Hstmt _ _ _ _ _ _ _ _ Hi) as (city & stop & H1 & H2 & H3 & -> & _ & H6).
  eexists _, city, stop. split; [exact Hrow|]. split; [done|]. split; [done|].
  split; [by inversion H3|]. split; [done|]. by rewrite <- Hdb.
Qed.

Lemma stop_rows_belong_to_their_city_witness :
  ∃ row city stop,
    stops (db (process_city_data {| city_id := 5; data := [riga] |}
                 (connect empty_database)).2) !! 100 = Some row ∧
    city ∈ data {| city_id := 5; data := [riga] |} ∧ stop ∈ Json.stops city ∧
    Json.id stop = 100 ∧
    Tbl.city_id row = Some (Json.id_city city).
Proof.
  destruct (stop_rows_belong_to_their_city {| city_id := 5; data := [riga] |}
              (connect empty_database)) as (sent & Hj & _ & H).
  vm_compute in Hj. subst sent.
  destruct (H 100 ltac:(by left)) as (row & city & stop & H1 & H2 & H3 & H4 & H5 & _).
  by exists row, city, stop.
Defined.

(** After an outcome has been handled without error, the destination city
    and the destination stop of each of its routes have their rows. *)
Lemma destination_references_exist cd conn conn' city stop :
  process_city_data cd conn = (inr tt, conn') →
  city ∈ data cd → stop ∈ Json.stops city →
  is_Some (cities (db conn') !! Json.id_city city) ∧
  is_Some (stops (db conn') !! Json.id stop) ∧
  written (route_row_statement (city_id cd) city stop) (db conn').
Proof.
  intros Hp Hc Hs.
  apply process_city_data_spec in Hp as (sent & _ & _ & Hw & _ & _ & ->).
  assert (∀ s, s ∈ city_statements (city_id cd) city → written s (db conn')) as Hall.
  { intros s Hin. apply Hw. unfold statements. apply list_elem_of_bind. by exists city. }
  split; [|split].
  - apply (Hall (city_row_statement city)). by left.
  - apply (Hall (stop_row_statement city stop)). right.
    apply elem_of_app. left. by apply list_elem_of_fmap_2.
  - apply Hall. right. apply elem_of_app. right. by apply list_elem_of_fmap_2.
Qed.

(** ** Routes are inserted again *)

(** C1, on the code: a run adds one Route row for every route statement it
    executes, whatever rows are there already; with one response that lists
    the same destination city twice, the run leaves two Route rows with the
    same logical key. *)
Theorem routes_are_not_deduplicated :
  (∀ upstream arrival file,
     route_key <$> routes (first_run upstream arrival file) =
     (route_key <$> routes file) ++ omap route_write (run_statements upstream arrival)) ∧
  route_key <$> routes_with riga_route
                  (first_run repeated_upstream submitted empty_database)
  = [riga_route; riga_route] ∧
  Tbl.id <$> routes_with riga_route
               (first_run repeated_upstream submitted empty_database)
  = [1; 2].
Proof.
  split; [|split; vm_compute; reflexivity].
  intros upstream arrival file. rewrite first_run_replay.
  by destruct (replay_tables (run_statements upstream arrival) file) as (_ & _ & _ & ->).
Qed.

(** C2, on the code: a second run on the same answers, in the same arrival
    order, leaves the City and Stop rows as the first run left them and adds
    every Route row of the first run once more; in the scenario of the
    specification the one route of the first run is there twice. *)
Theorem second_run_duplicates_routes :
  (∀ upstream arrival file,
     let added := omap route_write (run_statements upstream arrival) in
     cities (second_run upstream arrival file) = cities (first_run upstream arrival file) ∧
     stops (second_run upstream arrival file) = stops (first_run upstream arrival file) ∧
     route_key <$> routes (first_run upstream arrival file) =
       (route_key <$> routes file) ++ added ∧
     route_key <$> routes (second_run upstream arrival file) =
       (route_key <$> routes file) ++ added ++ added) ∧
  route_key <$> routes (first_run riga_upstream submitted empty_database)
  = [riga_route] ∧
  route_key <$> routes (second_run riga_upstream submitted empty_database)
  = [riga_route; riga_route].
Proof.
  split; [|split; vm_compute; reflexivity].
  intros upstream arrival file added. unfold second_run.
  fold (first_run upstream arrival (first_run upstream arrival file)).
  rewrite !first_run_replay.
  set (E := run_statements upstream arrival).
  destruct (replay_tables E (replay E file)) as (_ & -> & -> & ->).
  destruct (replay_tables E file) as (_ & -> & -> & ->).
  rewrite !upserts_twice. by rewrite <- app_assoc.
Qed.

(** ** References of a route *)

(** C3, on the code: the City rows after a run are those of before and those
    written from destination-city records; the origin identifier of an
    outcome is written to [routes] only.  In the scenario of the
    specification the run completes and reports outcome 5 as processed, and
    the Route row it leaves names origin city 5, for which there is no City
    row. *)
Theorem origin_city_is_dangling :
  (∀ upstream arrival file,
     dom (cities (first_run upstream arrival file)) =
     dom (cities file) ∪
     list_to_set (omap city_write (run_statements upstream arrival)).*1) ∧
  let final := (populate_database riga_upstream submitted empty_database).1 in
  let log := (populate_database riga_upstream submitted empty_database).2 in
  Processed 5 ∈ log ∧ last log = Some Completed ∧
  (Tbl.from_city_id <$> routes final) = [Some 5] ∧
  cities final !! 5 = None ∧
  is_Some (cities final !! 9) ∧ is_Some (stops final !! 100).
Proof.
  split.
  { intros upstream arrival file. rewrite first_run_replay.
    destruct (replay_tables (run_statements upstream arrival) file) as (_ & -> & _).
    apply upserts_dom. }
  intros final log. subst final log. split; [|split; [|split; [|split; [|split]]]].
  - apply (list_elem_of_lookup_2 _ 4%nat). vm_compute. reflexivity.
  - vm_compute. reflexivity.
  - vm_compute. reflexivity.
  - vm_compute. reflexivity.
  - vm_compute. by eexists.
  - vm_compute. by eexists.
Qed.

(** ** The schema initialiser *)

Lemma run_ddl_inr s sch sch' :
  run_ddl s sch = inr sch' → sch ⊆ sch' ∧ declares s sch'.
Proof.
  destruct s as [|n cols|n t cols]; cbn.
  - intros H. by inversion H.
  - destruct (sch !! n) as [[c|t c]|] eqn:E; intros H; inversion H; subst; clear H.
    + split; [done|]. by exists c.
    + split; [by apply insert_subseteq|]. exists cols. by rewrite lookup_insert_eq.
  - destruct (sch !! t) as [[tcols|t' c']|] eqn:Et; try discriminate.
    destruct (sch !! n) as [[c|t'' c]|] eqn:En; try discriminate.
    + intros H; inversion H; subst; clear H. split; [done|]. split; by eauto.
    + destruct (forallb _ cols); [|discriminate].
      intros H; inversion H; subst; clear H. split; [by apply insert_subseteq|].
      split.
      * exists tcols. rewrite lookup_insert_ne; [done|]. intros ->. congruence.
      * exists t, cols. by rewrite lookup_insert_eq.
Qed.

Lemma declares_weaken s sch sch' : sch ⊆ sch' → declares s sch → declares s sch'.
Proof.
  intros Hsub. destruct s as [|n cols|n t cols]; cbn; [done| |].
  - intros [c Hc]. exists c. by eapply lookup_weaken.
  - intros [[tc Htc] (t' & c & Hc)]. split.
    + exists tc. by eapply lookup_weaken.
    + exists t', c. by eapply lookup_weaken.
Qed.

Lemma declares_run_ddl s sch : declares s sch → run_ddl s sch = inr sch.
Proof.
  destruct s as [|n cols|n t cols]; cbn; [done| |].
  - intros [c ->]. done.
  - intros [[tc ->] (t' & c & ->)]. done.
Qed.

Lemma run_script_spec script sch r sch' :
  run_script script sch = (r, sch') →
  sch ⊆ sch' ∧
  (r = inr tt → Forall (fun s => declares s sch') script) ∧
  run_script script sch' = (r, sch').
Proof.
  revert sch. induction script as [|s script IH]; intros sch H; cbn in H.
  - inversion H; subst; clear H. done.
  - destruct (run_ddl s sch) as [e|sch1] eqn:E.
    + inversion H; subst; clear H. split; [done|]. split; [discriminate|].
      cbn. by rewrite E.
    + apply run_ddl_inr in E as [Hsub Hdecl].
      apply IH in H as (Hsub' & Hall & Hagain).
      assert (declares s sch') as Hd by by eapply declares_weaken.
      split; [by etrans|]. split; [intros Hr; constructor; auto|].
      cbn. by rewrite (declares_run_ddl s sch' Hd).
Qed.

Lemma set_schema_id d : set_schema (schema d) d = d.
Proof. by destruct d. Qed.

Lemma executescript_run_script script conn :
  in_transaction conn = false → committed conn = db conn →
  let result := run_script script (schema (db conn)) in
  (executescript script conn).1 = result.1 ∧
  committed (executescript script conn).2 = set_schema result.2 (db conn) ∧
  in_transaction (executescript script conn).2 = false.
Proof.
  unfold executescript. revert conn.
  induction script as [|s script IH]; intros conn Ht Hc; cbn.
  - rewrite set_schema_id. done.
  - rewrite bind_eq. destruct (run_script_statement s conn) as [r1 c1] eqn:E1.
    unfold run_script_statement in E1.
    destruct (run_ddl s (schema (db conn))) as [e|sch1] eqn:E;
      inversion E1; subst; clear E1; cbn.
    + rewrite set_schema_id. done.
    + rewrite Hc.
      match goal with |- context [for_each script _ ?c] => specialize (IH c) end.
      cbn in IH. specialize (IH Ht eq_refl).
      destruct IH as (H1 & H2 & H3). by rewrite H1, H2, H3.
Qed.

Lemma create_database_run_script file :
  create_database file =
  ((run_script schema_script (schema file)).1,
   set_schema (run_script schema_script (schema file)).2 file).
Proof.
  unfold create_database.
  pose proof (executescript_run_script schema_script (connect file) eq_refl eq_refl) as H.
  cbv zeta in H. change (db (connect file)) with file in H.
  destruct H as (H1 & H2 & H3).
  destruct (executescript schema_script (connect file)) as [[e|[]] conn];
    cbn [fst snd] in H1, H2, H3.
  - by rewrite <- H1, <- H2.
  - unfold commit. by rewrite H3, <- H1, <- H2.
Qed.

Lemma create_database_twice file :
  create_database (create_database file).2 = create_database file.
Proof.
  rewrite !create_database_run_script. cbn [fst snd set_schema schema].
  destruct (run_script schema_script (schema file)) as [r sch] eqn:E.
  apply run_script_spec in E as (_ & _ & E').
  cbn [fst snd set_schema schema]. rewrite E'. done.
Qed.

(** C8: calling the schema initialiser again, any number of times, leaves the
    file as the first call left it, with the same outcome; no call touches a
    row; and when the call succeeds the three tables and the three indexes
    are in the schema. *)
Theorem create_database_idempotent (file : Database) :
  let once := (create_database file).2 in
  (∀ n, create_database_times n once = once) ∧
  create_database once = create_database file ∧
  (cities once = cities file ∧ stops once = stops file ∧
   routes once = routes file ∧ sqlite_sequence once = sqlite_sequence file) ∧
  ((create_database file).1 = inr tt →
   Forall (fun s => declares s (schema once)) schema_script).
Proof.
  intros once. split; [|split; [|split]].
  - induction n as [|n IH]; [done|].
    change (create_database_times (S n) once)
      with (create_database (create_database_times n once)).2.
    rewrite IH. unfold once. by rewrite create_database_twice.
  - apply create_database_twice.
  - unfold once. by rewrite create_database_run_script.
  - unfold once. rewrite create_database_run_script. cbn [fst snd set_schema schema].
    destruct (run_script schema_script (schema file)) as [r sch] eqn:E.
    apply run_script_spec in E as (_ & Hall & _). done.
Qed.

Lemma create_database_idempotent_witness :
  Forall (fun s => declares s (schema (create_database empty_database).2)) schema_script.
Proof.
  apply (proj2 (proj2 (proj2 (create_database_idempotent empty_database)))).
  vm_compute. reflexivity.
Defined.

(** ** Ordering of the exported rows *)

Lemma ascii_compare_lt_trans a b c :
  Ascii.compare a b = Lt → Ascii.compare b c = Lt → Ascii.compare a c = Lt.
Proof.
  unfold Ascii.compare. rewrite !N.compare_lt_iff. apply N.lt_trans.
Qed.

Lemma string_compare_lt_trans a b c :
  String.compare a b = Lt → String.compare b c = Lt → String.compare a c = Lt.
Proof.
  revert b c. induction a as [|x a IH]; intros [|y b] [|z c]; cbn; try done.
  destruct (Ascii.compare x y) eqn:Exy; try done;
    destruct (Ascii.compare y z) eqn:Eyz; try done.
  - apply Ascii.compare_eq_iff in Exy, Eyz. subst.
    unfold Ascii.compare. rewrite N.compare_refl. apply IH.
  - apply Ascii.compare_eq_iff in Exy. subst. by rewrite Eyz.
  - apply Ascii.compare_eq_iff in Eyz. subst. by rewrite Exy.
  - by rewrite (ascii_compare_lt_trans x y z).
Qed.

#[global] Instance string_ordering : Ordering String.compare.
Proof.
  split.
  - apply String.compare_antisym.
  - apply string_compare_lt_trans.
  - intros a b H c. apply String.compare_eq_iff in H. by subst.
Qed.

#[global] Instance nullable_ordering : Ordering compare_nullable.
Proof.
  split.
  - intros [a|] [b|]; cbn; try done. apply String.compare_antisym.
  - intros [a|] [b|] [c|]; cbn; try done. apply string_compare_lt_trans.
  - intros [a|] [b|]; cbn; try done.
    intros H c. apply String.compare_eq_iff in H. by subst.
Qed.

Lemma ordering_on {A B} (f : A → B) (cmp : B → B → comparison) :
  Ordering cmp → Ordering (fun a b => cmp (f a) (f b)).
Proof.
  intros [H1 H2 H3]. split.
  - intros a b. apply H1.
  - intros a b c. apply H2.
  - intros a b H c. by apply H3.
Qed.

Lemma ordering_then_by {A} (cmp1 cmp2 : A → A → comparison) :
  Ordering cmp1 → Ordering cmp2 →
  Ordering (fun a b => then_by (cmp1 a b) (cmp2 a b)).
Proof.
  intros [A1 T1 E1] [A2 T2 E2]. split.
  - intros a b. rewrite (A1 a b), (A2 a b). by destruct (cmp1 b a).
  - intros a b c. unfold then_by.
    destruct (cmp1 a b) eqn:Hab; try done; destruct (cmp1 b c) eqn:Hbc; try done.
    + rewrite (E1 a b Hab c), Hbc. apply T2.
    + by rewrite (E1 a b Hab c), Hbc.
    + intros _ _. assert (cmp1 c a = Gt) as Hca.
      { rewrite (A1 b c) in Hbc. destruct (cmp1 c b) eqn:Hcb; try done.
        rewrite (E1 c b Hcb a), (A1 b a), Hab. done. }
      rewrite (A1 a c), Hca. done.
    + intros _ _. by rewrite (T1 a b c Hab Hbc).
  - intros a b. unfold then_by. destruct (cmp1 a b) eqn:Hab; try done.
    intros H c. rewrite (E1 a b Hab c). destruct (cmp1 b c); [|done|done].
    by apply E2.
Qed.

#[global] Instance order_by_ordering : Ordering order_by.
Proof.
  unfold order_by.
  apply (ordering_then_by (fun a b => String.compare (Sql.from_city a) (Sql.from_city b))).
  { apply (ordering_on Sql.from_city), _. }
  apply (ordering_then_by (fun a b => String.compare (Sql.to_city a) (Sql.to_city b))).
  { apply (ordering_on Sql.to_city), _. }
  apply (ordering_then_by
           (fun a b => compare_nullable (Sql.from_stop a) (Sql.from_stop b))).
  { apply (ordering_on Sql.from_stop), _. }
  apply (ordering_on Sql.to_stop), _.
Qed.

#[global] Instance row_le_total : Total row_le.
Proof.
  intros a b. unfold row_le. rewrite (cmp_antisym a b).
  destruct (order_by b a); cbn; auto.
Qed.

#[global] Instance row_le_trans : Transitive row_le.
Proof.
  intros a b c. unfold row_le. intros Hab Hbc.
  destruct (order_by a b) eqn:E1; [| |done].
  - by rewrite (cmp_eq_compat a b E1 c).
  - destruct (order_by b c) eqn:E2; [| |done].
    + assert (order_by c a = Gt) as Hca.
      { rewrite (cmp_antisym b c) in E2. destruct (order_by c b) eqn:E3; try done.
        rewrite (cmp_eq_compat c b E3 a), (cmp_antisym b a), E1. done. }
      rewrite (cmp_antisym a c), Hca. done.
    + by rewrite (cmp_lt_trans a b c E1 E2).
Qed.

(** ** The export *)

Lemma join_route_Some d r row :
  join_route d r = Some row ↔
  ∃ c1 c2 s2,
    Tbl.from_city_id r ≫= (cities d !!.) = Some c1 ∧
    Tbl.to_city_id r ≫= (cities d !!.) = Some c2 ∧
    Tbl.to_stop_id r ≫= (stops d !!.) = Some s2 ∧
    row = {| Sql.id := Tbl.id r; Sql.from_city := Tbl.name c1;
             Sql.to_city := Tbl.name c2;
             Sql.from_stop := Tbl.title <$> (Tbl.from_stop_id r ≫= (stops d !!.));
             Sql.to_stop := Tbl.title s2 |}.
Proof.
  unfold join_route.
  destruct (Tbl.from_city_id r ≫= (cities d !!.)) as [c1|]; cbn;
    [|split; [done|by intros (? & ? & ? & ? & _)]].
  destruct (Tbl.to_city_id r ≫= (cities d !!.)) as [c2|]; cbn;
    [|split; [done|by intros (? & ? & ? & _ & ? & _)]].
  destruct (Tbl.to_stop_id r ≫= (stops d !!.)) as [s2|]; cbn;
    [|split; [done|by intros (? & ? & ? & _ & _ & ? & _)]].
  split.
  - intros H. inversion H; subst; clear H. by exists c1, c2, s2.
  - intros (? & ? & ? & H1 & H2 & H3 & ->). by simplify_eq.
Qed.

Lemma export_route_summary_Permutation d :
  export_route_summary d ≡ₚ render <$> omap (join_route d) (routes d).
Proof.
  unfold export_route_summary, select_routes. by rewrite merge_sort_Permutation.
Qed.

(** C6: the exported sequence is the rendering, row by row, of the query
    result, which is sorted by (from_city, to_city, from_stop title with NULL
    first, to_stop title); and every route with a null origin stop that the
    joins keep is exported with "Any" as its [from_stop]. *)
Theorem export_is_ordered (d : Database) :
  export_route_summary d = render <$> select_routes d ∧
  StronglySorted row_le (select_routes d) ∧
  ∀ r row,
    r ∈ routes d → Tbl.from_stop_id r = None → join_route d r = Some row →
    render row ∈ export_route_summary d ∧ Summary.from_stop (render row) = "Any".
Proof.
  split; [done|]. split; [apply StronglySorted_merge_sort; apply _|].
  intros r row Hin Hnull Hjoin. split.
  - rewrite export_route_summary_Permutation. apply list_elem_of_fmap_2.
    apply list_elem_of_omap. by exists r.
  - apply join_route_Some in Hjoin as (c1 & c2 & s2 & _ & _ & _ & ->).
    cbn. by rewrite Hnull.
Qed.

(** C9: a route is exported exactly when its origin city, its destination
    city and its destination stop are all found; a route whose origin city
    has no row is left out; a missing origin stop is tolerated, and both a
    missing and an empty origin-stop title are rendered as "Any". *)
Theorem export_keeps_joined_routes (d : Database) :
  export_route_summary d ≡ₚ render <$> omap (join_route d) (routes d) ∧
  (∀ r, is_Some (join_route d r) ↔
        is_Some (Tbl.from_city_id r ≫= (cities d !!.)) ∧
        is_Some (Tbl.to_city_id r ≫= (cities d !!.)) ∧
        is_Some (Tbl.to_stop_id r ≫= (stops d !!.))) ∧
  (∀ r k, Tbl.from_city_id r = Some k → cities d !! k = None →
          join_route d r = None) ∧
  (∀ r row, join_route d r = Some row →
            Summary.id (render row) = Tbl.id r ∧
            Summary.from_stop (render row) =
              or_any (Tbl.title <$> (Tbl.from_stop_id r ≫= (stops d !!.)))) ∧
  or_any None = "Any" ∧ or_any (Some "") = "Any" ∧
  (∀ s, s ≠ "" → or_any (Some s) = s).
Proof.
  split; [apply export_route_summary_Permutation|].
  split; [|split; [|split; [|split; [|split]]]]; try done.
  - intros r. split.
    + intros [row (c1 & c2 & s2 & -> & -> & -> & _)%join_route_Some]. by eauto.
    + intros ([c1 H1] & [c2 H2] & [s2 H3]).
      eexists. apply join_route_Some. by exists c1, c2, s2.
  - intros r k Hk Hnone. unfold join_route. rewrite Hk. cbn. by rewrite Hnone.
  - intros r row (c1 & c2 & s2 & _ & _ & _ & ->)%join_route_Some. done.
  - intros [|a s] Hs; [done|]. done.
Qed.

Example two_way_export :
  export_route_summary two_way_store =
  [ {| Summary.id := 1; Summary.from_city := "Minsk"; Summary.to_city := "Riga";
       Summary.from_stop := "Any"; Summary.to_stop := "Central" |};
    {| Summary.id := 2; Summary.from_city := "Riga"; Summary.to_city := "Minsk";
       Summary.from_stop := "Any"; Summary.to_stop := "Station" |} ].
Proof. vm_compute. reflexivity. Qed.

Lemma export_is_ordered_witness :
  render {| Sql.id := 1; Sql.from_city := "Minsk"; Sql.to_city := "Riga";
            Sql.from_stop := None; Sql.to_stop := "Central" |}
    ∈ export_route_summary two_way_store ∧
  Summary.from_stop
    (render {| Sql.id := 1; Sql.from_city := "Minsk"; Sql.to_city := "Riga";
               Sql.from_stop := None; Sql.to_stop := "Central" |}) = "Any".
Proof.
  apply (proj2 (proj2 (export_is_ordered two_way_store))
           {| Tbl.id := 1; Tbl.from_city_id := Some 5; Tbl.to_city_id := Some 9;
              Tbl.from_stop_id := None; Tbl.to_stop_id := Some 100 |}).
  - apply (list_elem_of_lookup_2 _ 0%nat). vm_compute. reflexivity.
  - reflexivity.
  - vm_compute. reflexivity.
Defined.

Lemma export_keeps_joined_routes_witness :
  join_route (first_run riga_upstream submitted empty_database)
    {| Tbl.id := 1; Tbl.from_city_id := Some 5; Tbl.to_city_id := Some 9;
       Tbl.from_stop_id := None; Tbl.to_stop_id := Some 100 |} = None.
Proof.
  apply (proj1 (proj2 (proj2 (export_keeps_joined_routes
                                (first_run riga_upstream submitted empty_database))))
           _ 5).
  - reflexivity.
  - vm_compute. reflexivity.
Defined.

(** * Further properties *)

(** ** The log of a run *)

Lemma fetch_errors_app l1 l2 : fetch_errors (l1 ++ l2) = fetch_errors l1 ++ fetch_errors l2.
Proof. apply omap_app. Qed.

Lemma failed_requests_snoc upstream arrival cid :
  failed_requests upstream (arrival ++ [cid]) =
  failed_requests upstream arrival ++ failed_requests upstream [cid].
Proof. apply omap_app. Qed.

Lemma handle_future_fetch_errors upstream conn log cid :
  fetch_errors (handle_future upstream (conn, log) cid).2 =
  fetch_errors log ++ failed_requests upstream [cid].
Proof.
  destruct (handle_future_cases upstream conn log cid)
    as [[Hn ->]|[(cd & c' & Hs & _ & ->)|(cd & e & c' & Hs & _ & ->)]];
    cbn [fst snd]; rewrite fetch_errors_app; f_equal.
  - unfold failed_requests. cbn [omap list_omap].
    destruct (upstream cid) as [e|result payload]; cbn; [done|].
    by destruct (_ && _).
  - apply fetch_city_data_some in Hs as (_ & payload & Hr & _).
    unfold failed_requests. cbn [omap list_omap]. by rewrite Hr.
  - apply fetch_city_data_some in Hs as (_ & payload & Hr & _).
    unfold failed_requests. cbn [omap list_omap]. by rewrite Hr.
Qed.

Lemma ingest_fetch_errors upstream arrival conn :
  fetch_errors (ingest upstream arrival conn).2 = failed_requests upstream arrival.
Proof.
  induction arrival as [|cid arrival IH] using rev_ind; [done|].
  rewrite ingest_snoc, failed_requests_snoc, <- IH.
  destruct (ingest upstream arrival conn) as [c log].
  apply handle_future_fetch_errors.
Qed.

Lemma handle_future_about upstream conn log cid r :
  r ∈ (handle_future upstream (conn, log) cid).2 →
  r ∈ log ∨ (about r = Some cid ∧ fetch_city_data cid (upstream cid) ≠ (None, [])).
Proof.
  destruct (handle_future_cases upstream conn log cid)
    as [[Hn ->]|[(cd & c' & Hs & _ & ->)|(cd & e & c' & Hs & _ & ->)]];
    cbn [fst snd]; intros [Hin|Hin]%elem_of_app; try by left.
  - right. destruct (upstream cid) as [e|result payload]; cbn in *.
    + by apply list_elem_of_singleton in Hin as ->.
    + destruct (_ && _); by apply elem_of_nil in Hin.
  - right. apply list_elem_of_singleton in Hin as ->. split; [done|].
    intros H. by rewrite H in Hs.
  - right. apply list_elem_of_singleton in Hin as ->. split; [done|].
    intros H. by rewrite H in Hs.
Qed.

Lemma ingest_about upstream arrival conn r :
  r ∈ (ingest upstream arrival conn).2 →
  ∃ cid, cid ∈ arrival ∧ about r = Some cid ∧
         fetch_city_data cid (upstream cid) ≠ (None, []).
Proof.
  induction arrival as [|cid arrival IH] using rev_ind.
  { by intros ?%elem_of_nil. }
  rewrite ingest_snoc. destruct (ingest upstream arrival conn) as [c log].
  cbn [snd] in IH. intros [Hin|[Ha Hf]]%handle_future_about.
  - destruct (IH Hin) as (cid' & Hcid & Hrest). exists cid'. split; [|done].
    apply elem_of_app. by left.
  - exists cid. split; [|done]. apply elem_of_app. right. by left.
Qed.

(** X1: what the log of a run says about the requests.  The transport
    failures it reports are, up to order, those of the requests that failed,
    each with its identifier and its reason, once per request.  Every record
    but the completion record is about an identifier that was requested.  And
    a request whose answer is not a success, or a success without data, leaves
    no record at all under its identifier: such a skip cannot be told, from the
    log, from a request that was never made. *)
Theorem skipped_requests_leave_no_record upstream (arrival : list Z) (file : Database) :
  let log := (populate_database upstream arrival file).2 in
  fetch_errors log ≡ₚ failed_requests upstream arrival ∧
  (∀ r, r ∈ log → r = Completed ∨ ∃ cid, cid ∈ arrival ∧ about r = Some cid) ∧
  (∀ cid, fetch_city_data cid (upstream cid) = (None, []) →
          ∀ r, r ∈ log → about r ≠ Some cid).
Proof.
  cbv zeta. rewrite populate_database_log. split; [|split].
  - rewrite fetch_errors_app, ingest_fetch_errors. cbn. by rewrite app_nil_r.
  - intros r [Hin|Hin]%elem_of_app.
    + right. apply ingest_about in Hin as (cid & Hcid & Ha & _). by exists cid.
    + left. by apply list_elem_of_singleton in Hin.
  - intros cid Hskip r [Hin|Hin]%elem_of_app.
    + apply ingest_about in Hin as (cid' & _ & Ha & Hf). rewrite Ha.
      intros [= ->]. done.
    + by apply list_elem_of_singleton in Hin as ->.
Qed.

Lemma skipped_requests_leave_no_record_witness :
  fetch_city_data 5 (refusing_upstream 5) = (None, []) ∧
  Forall (fun r => about r ≠ Some 5)
    (populate_database refusing_upstream submitted (create_database empty_database).2).2.
Proof.
  split; [reflexivity|]. apply Forall_forall. intros r Hr.
  exact (proj2 (proj2 (skipped_requests_leave_no_record refusing_upstream submitted
                         (create_database empty_database).2))
           5 eq_refl r Hr).
Defined.

(** ** Futures without data *)

Lemma data_outcomes_filter upstream arrival :
  data_outcomes upstream
    (filter (fun cid => is_Some (fetch_city_data cid (upstream cid)).1) arrival) =
  data_outcomes upstream arrival.
Proof.
  unfold data_outcomes. induction arrival as [|cid arrival IH]; [done|].
  rewrite filter_cons. cbn [omap list_omap].
  destruct (fetch_city_data cid (upstream cid)).1 as [cd|] eqn:E.
  - rewrite decide_True by by eexists. cbn [omap list_omap]. rewrite E. by f_equal.
  - rewrite decide_False by by intros [? ?]. done.
Qed.

(** X2: a future that yields no data outcome (transport failure, answer that
    is not a success, empty data) leaves no trace in the store: the store
    after a run is the store after the run of the data outcomes alone, and a
    run without any data outcome leaves the file as it was. *)
Theorem skipped_futures_leave_the_store_alone upstream (arrival : list Z) file :
  first_run upstream arrival file =
  first_run upstream
    (filter (fun cid => is_Some (fetch_city_data cid (upstream cid)).1) arrival) file ∧
  ((∀ cid, cid ∈ arrival → (fetch_city_data cid (upstream cid)).1 = None) →
   first_run upstream arrival file = file).
Proof.
  rewrite !first_run_replay. unfold run_statements. rewrite data_outcomes_filter.
  split; [done|]. intros Hnone.
  assert (data_outcomes upstream arrival = []) as ->; [|done].
  unfold data_outcomes. induction arrival as [|cid arrival IH]; [done|].
  cbn [omap list_omap]. rewrite (Hnone cid) by by left.
  apply IH. intros c Hc. apply Hnone. by right.
Qed.

Lemma skipped_futures_leave_the_store_alone_witness :
  first_run (fun _ => RequestException "timeout") submitted two_way_store = two_way_store.
Proof.
  apply (proj2 (skipped_futures_leave_the_store_alone
                  (fun _ => RequestException "timeout") submitted two_way_store)).
  intros cid _. reflexivity.
Defined.

(** ** What a run adds *)

(** X3: a run deletes nothing and rewrites no route: the schema is left as it
    is, every City and Stop key of the file is still there, and the Route rows
    of the file are the first rows of [routes] afterwards, unchanged. *)
Theorem run_only_adds upstream (arrival : list Z) (file : Database) :
  let final := (populate_database upstream arrival file).1 in
  schema final = schema file ∧
  dom (cities file) ⊆ dom (cities final) ∧
  dom (stops file) ⊆ dom (stops final) ∧
  routes file `prefix_of` routes final.
Proof.
  cbn. rewrite populate_database_final.
  by destruct (ingest_continues upstream arrival (connect file)) as ((_ & _ & Hg & _) & _).
Qed.

Lemma statements_route_keys cd : omap route_write (statements cd) = route_keys cd.
Proof.
  unfold statements, route_keys. generalize (city_id cd) as from_id. intros from_id.
  induction (data cd) as [|city cs IH]; [done|].
  rewrite !bind_cons, omap_app, IH. f_equal.
  unfold city_statements. cbn [omap list_omap city_row_statement route_write].
  rewrite omap_app.
  assert (omap route_write (stop_row_statement city <$> Json.stops city) = []) as ->.
  { induction (Json.stops city) as [|s l IHl]; [done|]. cbn. apply IHl. }
  cbn [app]. induction (Json.stops city) as [|s l IHl]; [done|].
  cbn. by f_equal.
Qed.

(** X4: an outcome that is handled without error adds exactly one Route row
    for each stop of each destination-city record, in the order of the
    payload, with the key (origin identifier, [id_city], NULL, stop [id]). *)
Theorem processed_outcome_adds_its_routes cd conn conn' :
  process_city_data cd conn = (inr tt, conn') →
  route_key <$> routes (db conn') = (route_key <$> routes (db conn)) ++ route_keys cd.
Proof.
  intros Hp. pose proof Hp as Hp'. rewrite process_city_data_statements in Hp'.
  apply for_each_execute_replay in Hp' as (sent' & Hj' & _ & -> & _).
  apply process_city_data_spec in Hp as (sent & _ & Hj & _ & _ & _ & ->).
  rewrite Hj in Hj'. apply app_inv_head in Hj'. subst sent'.
  destruct (replay_tables (statements cd) (db conn)) as (_ & _ & _ & ->).
  by rewrite statements_route_keys.
Qed.

Lemma processed_outcome_adds_its_routes_witness :
  route_key <$> routes (db (process_city_data {| city_id := 5; data := [riga; minsk] |}
                              (connect two_way_store)).2) =
  (route_key <$> routes two_way_store) ++
  [(Some 5, Some 9, None, Some 100); (Some 5, Some 5, None, Some 50)].
Proof.
  apply (processed_outcome_adds_its_routes {| city_id := 5; data := [riga; minsk] |}
           (connect two_way_store)).
  vm_compute. reflexivity.
Defined.

(** ** Route identifiers *)

Lemma max_rowid_ge rs r : r ∈ rs → Tbl.id r ≤ max_rowid rs.
Proof.
  induction rs as [|r' rs IH]; [by intros ?%elem_of_nil|].
  change (max_rowid (r' :: rs)) with (Z.max (Tbl.id r') (max_rowid rs)).
  intros [->|Hin]%elem_of_cons; [lia|]. specialize (IH Hin). lia.
Qed.

Lemma apply_statement_ids s d :
  StronglySorted Z.lt (Tbl.id <$> routes d) →
  StronglySorted Z.lt (Tbl.id <$> routes (apply_statement s d)).
Proof.
  unfold apply_statement.
  destruct s as [i [n|] sl wp tp|i c [t|] g p o df|fc tc fs ts]; cbn; try done.
  intros Hs. rewrite fmap_app. apply StronglySorted_app_2; [|done|].
  - intros x1 x2 (r & -> & Hr)%list_elem_of_fmap ->%list_elem_of_singleton. cbn.
    pose proof (max_rowid_ge _ _ Hr). unfold next_rowid. lia.
  - cbn. repeat constructor.
Qed.

Lemma replay_ids l d :
  StronglySorted Z.lt (Tbl.id <$> routes d) →
  StronglySorted Z.lt (Tbl.id <$> routes (replay l d)).
Proof.
  revert d. induction l as [|s l IH]; intros d Hs; [done|].
  apply (IH (apply_statement s d)). by apply apply_statement_ids.
Qed.

(** X5: the identifiers AUTOINCREMENT hands out keep [routes] in strictly
    increasing order of [id]: if the rows of the file are so ordered, so are
    the rows after a run, and no two rows share an [id]. *)
Theorem route_ids_stay_increasing upstream (arrival : list Z) (file : Database) :
  StronglySorted Z.lt (Tbl.id <$> routes file) →
  StronglySorted Z.lt (Tbl.id <$> routes (first_run upstream arrival file)) ∧
  NoDup (Tbl.id <$> routes (first_run upstream arrival file)).
Proof.
  intros Hs. rewrite first_run_replay.
  assert (StronglySorted Z.lt
            (Tbl.id <$> routes (replay (run_statements upstream arrival) file))) as H
    by by apply replay_ids.
  split; [done|]. revert H. generalize (Tbl.id <$> routes
    (replay (run_statements upstream arrival) file)). intros ids.
  induction 1 as [|x l Hl IH Hx]; constructor; [|done].
  intros Hin. rewrite Forall_forall in Hx. specialize (Hx x Hin). lia.
Qed.

Lemma route_ids_stay_increasing_witness :
  NoDup (Tbl.id <$> routes (first_run repeated_upstream submitted two_way_store)).
Proof.
  apply (route_ids_stay_increasing repeated_upstream submitted two_way_store).
  vm_compute. repeat constructor.
Defined.

(** ** Which rows a run writes *)

Lemma upserts_frame {V} (w : list (Z * V)) (m : gmap Z V) k :
  k ∉ w.*1 → upserts w m !! k = m !! k.
Proof.
  intros Hk. rewrite upserts_union. apply lookup_union_r.
  apply not_elem_of_list_to_map_1. by rewrite fmap_reverse, elem_of_reverse.
Qed.

Lemma upserts_app {V} (w1 w2 : list (Z * V)) (m : gmap Z V) :
  upserts (w1 ++ w2) m = upserts w2 (upserts w1 m).
Proof. apply foldl_app. Qed.

Lemma accepted_prefix l : accepted l `prefix_of` l.
Proof.
  induction l as [|s l IH]; [done|]. cbn.
  destruct (well_formed s); [by apply prefix_cons|apply prefix_nil].
Qed.

Lemma run_statements_elem_of upstream arrival s :
  s ∈ run_statements upstream arrival →
  ∃ cd, cd ∈ data_outcomes upstream arrival ∧ s ∈ statements cd.
Proof.
  unfold run_statements. intros (cd & Hs & Hcd)%list_elem_of_bind.
  exists cd. split; [done|]. eapply elem_of_prefix; [done|apply accepted_prefix].
Qed.

Lemma statements_elem_of cd s :
  s ∈ statements cd →
  ∃ city, city ∈ data cd ∧
    (s = city_row_statement city ∨
     ∃ stop, stop ∈ Json.stops city ∧
       (s = stop_row_statement city stop ∨
        s = route_row_statement (city_id cd) city stop)).
Proof.
  unfold statements. intros (city & Hs & Hc)%list_elem_of_bind.
  exists city. split; [done|]. unfold city_statements in Hs.
  apply elem_of_cons in Hs as [->|Hs]; [by left|]. right.
  apply elem_of_app in Hs as [Hs|Hs];
    apply list_elem_of_fmap in Hs as (stop & -> & Hstop); exists stop; by auto.
Qed.

(** X6: a run writes the City row of an id only from a destination-city
    record that carries this id, and the Stop row of an id only from a stop
    record that carries it: the rows of every other id are after the run what
    they were before, present or absent. *)
Theorem run_leaves_other_rows_alone upstream (arrival : list Z) (file : Database) k :
  ((∀ cd city, cd ∈ data_outcomes upstream arrival → city ∈ data cd →
               Json.id_city city ≠ k) →
   cities (first_run upstream arrival file) !! k = cities file !! k) ∧
  ((∀ cd city stop, cd ∈ data_outcomes upstream arrival → city ∈ data cd →
                    stop ∈ Json.stops city → Json.id stop ≠ k) →
   stops (first_run upstream arrival file) !! k = stops file !! k).
Proof.
  rewrite first_run_replay.
  destruct (replay_tables (run_statements upstream arrival) file) as (_ & -> & -> & _).
  split; intros Hother; apply upserts_frame;
    intros ([k' row] & Hk & (s & Hs & Hw)%list_elem_of_omap)%list_elem_of_fmap;
    cbn in Hk; subst k';
    apply run_statements_elem_of in Hs as (cd & Hcd & Hs);
    apply statements_elem_of in Hs as (city & Hcity & Hcase).
  - destruct Hcase as [->|(stop & Hstop & [->| ->])]; [|done|done].
    cbn in Hw. destruct (Json.city_name city); [|done].
    inversion Hw; subst. by eapply Hother.
  - destruct Hcase as [->|(stop & Hstop & [->| ->])]; [done| |done].
    cbn in Hw. destruct (Json.title stop); [|done].
    inversion Hw; subst. by eapply Hother.
Qed.

Lemma run_leaves_other_rows_alone_witness :
  cities (first_run riga_upstream submitted two_way_store) !! 5 =
  cities two_way_store !! 5.
Proof.
  apply (proj1 (run_leaves_other_rows_alone riga_upstream submitted two_way_store 5)).
  intros cd city Hcd Hcity.
  assert (data_outcomes riga_upstream submitted = [{| city_id := 5; data := [riga] |}])
    as Hd by (vm_compute; reflexivity).
  rewrite Hd in Hcd. apply list_elem_of_singleton in Hcd. subst cd.
  apply list_elem_of_singleton in Hcity. subst city. discriminate.
Defined.

Lemma statements_city_writes from_id (l : list Json.City) :
  omap city_write (l ≫= city_statements from_id) =
  omap (fun city => pair (Json.id_city city) <$> city_row city) l.
Proof.
  induction l as [|city l IH]; [done|].
  rewrite bind_cons, omap_app, IH. cbn [omap list_omap]. unfold city_statements.
  cbn [omap list_omap].
  assert (omap city_write
            ((stop_row_statement city <$> Json.stops city) ++
             (route_row_statement from_id city <$> Json.stops city)) = []) as Hnone.
  { rewrite omap_app.
    assert (∀ ss, omap city_write (stop_row_statement city <$> ss) = []) as ->.
    { induction ss as [|s ss IHs]; [done|]. cbn. by destruct (Json.title s). }
    assert (∀ ss, omap city_write (route_row_statement from_id city <$> ss) = []) as ->.
    { induction ss as [|s ss IHs]; [done|]. cbn. done. }
    done. }
  unfold city_row_statement, city_row, city_write at 1.
  destruct (Json.city_name city); cbn; by rewrite Hnone.
Qed.

(** X7: overwrite-by-id within one outcome: when an outcome is handled
    without error, the City row found under a destination id holds the fields
    of the last destination-city record of the payload that carries this id. *)
Theorem last_city_record_wins cd conn conn' before city after :
  process_city_data cd conn = (inr tt, conn') →
  data cd = before ++ city :: after →
  Json.id_city city ∉ Json.id_city <$> after →
  is_Some (city_row city) ∧
  cities (db conn') !! Json.id_city city = city_row city.
Proof.
  intros Hp Hdata Hlast. pose proof Hp as Hp'.
  rewrite process_city_data_statements in Hp'.
  pose proof (for_each_execute_well_formed _ _ _ _ Hp') as Hwf.
  apply for_each_execute_replay in Hp' as (sent' & Hj' & _ & -> & _).
  apply process_city_data_spec in Hp as (sent & _ & Hj & _ & _ & _ & ->).
  rewrite Hj in Hj'. apply app_inv_head in Hj'. subst sent'.
  specialize (Hwf _ Hj). rewrite Forall_forall in Hwf.
  assert (is_Some (city_row city)) as [row Hrow].
  { specialize (Hwf (city_row_statement city)). unfold city_row.
    destruct (Json.city_name city) as [n|] eqn:En; [by eexists|].
    assert (well_formed (city_row_statement city) = true) as Hc.
    { apply Hwf. unfold statements. apply list_elem_of_bind. exists city.
      split; [by left|]. rewrite Hdata. apply elem_of_app. right. by left. }
    unfold city_row_statement in Hc. cbn in Hc. rewrite En in Hc. done. }
  split; [by eexists|].
  destruct (replay_tables (statements cd) (db conn)) as (_ & -> & _).
  unfold statements. rewrite statements_city_writes, Hdata.
  rewrite omap_app, upserts_app. cbn [omap list_omap]. rewrite Hrow. cbn [fmap option_fmap option_map].
  change ((Json.id_city city, row) :: ?l) with ([(Json.id_city city, row)] ++ l).
  rewrite upserts_app, upserts_frame.
  - cbn. by rewrite lookup_insert_eq.
  - intros ([k r] & Hk & (c & Hc & Hw)%list_elem_of_omap)%list_elem_of_fmap.
    cbn in Hk. subst k. apply Hlast. apply list_elem_of_fmap. exists c.
    split; [|done]. destruct (city_row c); [|done]. cbn in Hw. by inversion Hw.
Qed.

Lemma last_city_record_wins_witness :
  cities (db (process_city_data {| city_id := 5; data := [riga; riga_renamed] |}
                (connect (create_database empty_database).2)).2) !! 9 =
  city_row riga_renamed.
Proof.
  apply (last_city_record_wins {| city_id := 5; data := [riga; riga_renamed] |}
           (connect (create_database empty_database).2) _ [riga] riga_renamed []).
  - vm_compute. reflexivity.
  - reflexivity.
  - by intros ?%elem_of_nil.
Defined.

(** ** More on the export *)

Lemma or_any_not_empty t : or_any t ≠ "".
Proof. destruct t as [[|a s]|]; done. Qed.

Lemma export_route_summary_elem_of d x :
  x ∈ export_route_summary d →
  ∃ r row, r ∈ routes d ∧ join_route d r = Some row ∧ x = render row.
Proof.
  rewrite export_route_summary_Permutation.
  intros (row & -> & (r & Hr & Hj)%list_elem_of_omap)%list_elem_of_fmap.
  by exists r, row.
Qed.

(** X8: no entry of the export has an empty [from_stop]: it is "Any" or the
    title of a Stop row of the store; and each entry carries the [id] of a
    Route row and the names and title of rows of the store. *)
Theorem export_entries_come_from_rows (d : Database) x :
  x ∈ export_route_summary d →
  Summary.from_stop x ≠ "" ∧
  (Summary.from_stop x = "Any" ∨
   ∃ k s, stops d !! k = Some s ∧ Tbl.title s = Summary.from_stop x) ∧
  ∃ r c1 c2 s2,
    r ∈ routes d ∧ Summary.id x = Tbl.id r ∧
    Tbl.from_city_id r ≫= (cities d !!.) = Some c1 ∧ Summary.from_city x = Tbl.name c1 ∧
    Tbl.to_city_id r ≫= (cities d !!.) = Some c2 ∧ Summary.to_city x = Tbl.name c2 ∧
    Tbl.to_stop_id r ≫= (stops d !!.) = Some s2 ∧ Summary.to_stop x = Tbl.title s2.
Proof.
  intros (r & row & Hr & (c1 & c2 & s2 & H1 & H2 & H3 & ->)%join_route_Some & ->)
    %export_route_summary_elem_of.
  cbn. split; [apply or_any_not_empty|]. split.
  - destruct (Tbl.from_stop_id r) as [k|]; cbn; [|by left].
    destruct (stops d !! k) as [s|] eqn:Es; cbn; [|by left].
    destruct (Tbl.title s) as [|a t] eqn:Et; [by left|].
    right. exists k, s. by rewrite Et.
  - by exists r, c1, c2, s2.
Qed.

Lemma export_entries_come_from_rows_witness :
  Summary.from_stop
    {| Summary.id := 2; Summary.from_city := "Riga"; Summary.to_city := "Minsk";
       Summary.from_stop := "Any"; Summary.to_stop := "Station" |} ≠ "".
Proof.
  apply (export_entries_come_from_rows two_way_store).
  apply (list_elem_of_lookup_2 _ 1%nat). vm_compute. reflexivity.
Defined.

Lemma rendered_ids d (l : list Tbl.Route) :
  Summary.id <$> (render <$> omap (join_route d) l) =
  Tbl.id <$> filter (fun r => is_Some (join_route d r)) l.
Proof.
  induction l as [|r l IH]; [done|]. rewrite filter_cons. cbn [omap list_omap].
  destruct (join_route d r) as [row|] eqn:E.
  - rewrite decide_True by by eexists. cbn. rewrite IH. f_equal.
    apply join_route_Some in E as (? & ? & ? & _ & _ & _ & ->). done.
  - rewrite decide_False by by intros [? ?]. done.
Qed.

(** X9: the export has one entry for every route that the joins keep and no
    other: the [id]s of its entries are, up to order, those of these routes;
    so it is never longer than [routes], and it has one entry per route when
    every route finds its two cities and its destination stop. *)
Theorem export_has_one_entry_per_joined_route (d : Database) :
  Summary.id <$> export_route_summary d ≡ₚ
    Tbl.id <$> filter (fun r => is_Some (join_route d r)) (routes d) ∧
  (length (export_route_summary d) ≤ length (routes d))%nat ∧
  (Forall (fun r => is_Some (join_route d r)) (routes d) →
   length (export_route_summary d) = length (routes d)).
Proof.
  assert (Summary.id <$> export_route_summary d ≡ₚ
            Tbl.id <$> filter (fun r => is_Some (join_route d r)) (routes d)) as Hp.
  { rewrite export_route_summary_Permutation. by rewrite rendered_ids. }
  split; [done|].
  apply Permutation_length in Hp. rewrite !length_fmap in Hp. rewrite Hp.
  split; [apply length_filter|].
  generalize (routes d). intros l Hall. f_equal.
  induction Hall as [|r l Hr Hl IH]; [done|].
  rewrite filter_cons, decide_True by done. by rewrite IH.
Qed.

Lemma export_has_one_entry_per_joined_route_witness :
  length (export_route_summary two_way_store) = length (routes two_way_store).
Proof.
  apply (proj2 (proj2 (export_has_one_entry_per_joined_route two_way_store))).
  vm_compute. repeat constructor; by eexists.
Defined.

(** X10: every Route row a run adds has a null [from_stop_id]; so when the
    routes of the file all have one, every entry of the export after the run
    reads "Any" as its [from_stop]. *)
Theorem ingested_routes_export_any upstream (arrival : list Z) (file : Database) :
  (∀ r, r ∈ routes file → Tbl.from_stop_id r = None) →
  (∀ r, r ∈ routes (first_run upstream arrival file) → Tbl.from_stop_id r = None) ∧
  (∀ x, x ∈ export_route_summary (first_run upstream arrival file) →
        Summary.from_stop x = "Any").
Proof.
  intros Hfile.
  assert (∀ r, r ∈ routes (first_run upstream arrival file) →
               Tbl.from_stop_id r = None) as Hall.
  { intros r Hr. apply (list_elem_of_fmap_2 route_key) in Hr.
    remember (route_key r) as key eqn:Hr'.
    rewrite first_run_replay in Hr.
    destruct (replay_tables (run_statements upstream arrival) file) as (_ & _ & _ & Hk).
    rewrite Hk in Hr. apply elem_of_app in Hr as [Hr|Hr].
    - apply list_elem_of_fmap in Hr as (r0 & Hkey & Hr0). rewrite Hr' in Hkey.
      specialize (Hfile r0 Hr0). unfold route_key in Hkey.
      injection Hkey as _ _ Hfs _. congruence.
    - apply list_elem_of_omap in Hr as (s & Hs & Hw).
      apply run_statements_elem_of in Hs as (cd & _ & Hs).
      apply statements_elem_of in Hs as (city & _ & [->|(stop & _ & [->| ->])]);
        try discriminate.
      cbn in Hw. injection Hw as Hw. subst key.
      unfold route_key in Hw. injection Hw as _ _ Hfs _. by symmetry. }
  split; [done|].
  intros x (r & row & Hr & (c1 & c2 & s2 & _ & _ & _ & ->)%join_route_Some & ->)
    %export_route_summary_elem_of.
  cbn. by rewrite (Hall r Hr).
Qed.

Lemma ingested_routes_export_any_witness :
  Summary.from_stop
    {| Summary.id := 1; Summary.from_city := "Minsk"; Summary.to_city := "Riga";
       Summary.from_stop := "Any"; Summary.to_stop := "Central" |} = "Any".
Proof.
  apply (proj2 (ingested_routes_export_any two_way_upstream submitted empty_database
                  ltac:(intros r Hr; by apply elem_of_nil in Hr))).
  apply (list_elem_of_lookup_2 _ 0%nat). vm_compute. reflexivity.
Defined.

(** ** More on the schema initialiser *)

(** X11: [create_database] drops and replaces nothing: every object of the
    schema, whether or not the script declares its name, is still there under
    its name, unchanged, after the call, and so are the rows of the three
    tables; this holds when the call succeeds and when it raises part-way. *)
Theorem create_database_keeps_the_schema (file : Database) :
  schema file ⊆ schema (create_database file).2 ∧
  cities (create_database file).2 = cities file ∧
  stops (create_database file).2 = stops file ∧
  routes (create_database file).2 = routes file.
Proof.
  rewrite create_database_run_script. cbn [fst snd set_schema schema].
  split; [|done].
  destruct (run_script schema_script (schema file)) as [r sch] eqn:E.
  by apply run_script_spec in E as (? & _).
Qed.

(** X12: on a file in which none of the six names is taken, [create_database]
    succeeds and every declared object is in the schema with the columns of
    the script. *)
Theorem create_database_on_free_names (file : Database) :
  (∀ n, n ∈ declared_objects.*1 → schema file !! n = None) →
  (create_database file).1 = inr tt ∧
  Forall (fun no => schema (create_database file).2 !! no.1 = Some no.2) declared_objects.
Proof.
  intros Hfree.
  assert (schema file !! "cities" = None) as H1 by (apply Hfree; set_solver).
  assert (schema file !! "stops" = None) as H2 by (apply Hfree; set_solver).
  assert (schema file !! "routes" = None) as H3 by (apply Hfree; set_solver).
  assert (schema file !! "idx_cities_slug" = None) as H4 by (apply Hfree; set_solver).
  assert (schema file !! "idx_stops_city_id" = None) as H5 by (apply Hfree; set_solver).
  assert (schema file !! "idx_routes_from_to" = None) as H6 by (apply Hfree; set_solver).
  rewrite create_database_run_script. unfold schema_script, declared_objects.
  cbn [run_script run_ddl]. rewrite H1. cbn [run_script run_ddl].
  repeat (rewrite ?lookup_insert_eq, ?lookup_insert_ne by done;
          rewrite ?H1, ?H2, ?H3, ?H4, ?H5, ?H6; cbn [run_script run_ddl forallb];
          rewrite ?bool_decide_eq_true_2 by set_solver; cbn [andb]).
  cbn [fst snd set_schema schema]. split; [done|].
  repeat constructor; cbn [fst snd]; by simplify_map_eq.
Qed.

Lemma create_database_on_free_names_witness :
  (create_database empty_database).1 = inr tt.
Proof.
  apply (create_database_on_free_names empty_database).
  intros n _. reflexivity.
Defined.

(** ** The analysis *)

#[global] Instance count_desc_total : Total count_desc.
Proof. intros a b. unfold count_desc. lia. Qed.

#[global] Instance count_desc_trans : Transitive count_desc.
Proof. intros a b c. unfold count_desc. lia. Qed.

Lemma top5_largest groups : largest_five (top5 groups) groups.
Proof.
  unfold largest_five, top5.
  pose proof (StronglySorted_merge_sort count_desc groups) as Hs.
  pose proof (merge_sort_Permutation count_desc groups) as Hp.
  rewrite <- (take_drop 5 (merge_sort count_desc groups)) in Hs, Hp.
  apply StronglySorted_app in Hs as (Hle & Htop & _).
  split; [rewrite length_take; lia|]. split; [done|].
  exists (drop 5 (merge_sort count_desc groups)). split; [done|].
  intros x y Hx Hy. by apply (Hle x y).
Qed.

Lemma grouped_elem_of count d name n :
  (name, n) ∈ grouped count d ↔
  ∃ k c, cities d !! k = Some c ∧ name = Tbl.name c ∧ n = count k ∧ n ≠ 0%nat.
Proof.
  unfold grouped. rewrite list_elem_of_omap. split.
  - intros ([k c] & Hin & Hsome). apply elem_of_map_to_list in Hin. cbn in Hsome.
    destruct (decide (count k = 0%nat)); [done|]. inversion Hsome; subst.
    by exists k, c.
  - intros (k & c & Hc & -> & -> & Hn). exists (k, c).
    split; [by apply elem_of_map_to_list|]. cbn. by rewrite decide_False.
Qed.

(** X13: the two lists [analyze_database] prints are the five largest groups
    of their query, largest first: at most five entries, in descending order
    of count, and no city left out has more stops (or routes) than one that
    is listed.  A city is a group of a query exactly when it has a City row
    and at least one joined row, so a city without stops, and an origin
    identifier without a City row, are never listed. *)
Theorem analysis_lists_the_largest (d : Database) :
  largest_five (top_stops d) (grouped (stops_in d) d) ∧
  largest_five (top_connected d) (grouped (routes_from d) d) ∧
  (∀ name n,
     (name, n) ∈ grouped (stops_in d) d ↔
     ∃ k c, cities d !! k = Some c ∧ name = Tbl.name c ∧
            n = stops_in d k ∧ n ≠ 0%nat) ∧
  (∀ name n,
     (name, n) ∈ grouped (routes_from d) d ↔
     ∃ k c, cities d !! k = Some c ∧ name = Tbl.name c ∧
            n = routes_from d k ∧ n ≠ 0%nat).
Proof.
  split; [apply top5_largest|]. split; [apply top5_largest|].
  split; intros name n; apply grouped_elem_of.
Qed.

(** ** The script *)

Lemma create_database_settled d d0 d1 :
  create_database d = (inr tt, d0) → schema d1 = schema d0 →
  create_database d1 = (inr tt, d1).
Proof.
  rewrite !create_database_run_script. intros H Hsch.
  destruct (run_script schema_script (schema d)) as [r sch] eqn:E.
  cbn [fst snd] in H. inversion H; subst; clear H. cbn [schema set_schema] in Hsch.
  apply run_script_spec in E as (_ & _ & E). rewrite Hsch, E. cbn [fst snd].
  by rewrite <- Hsch, set_schema_id.
Qed.

Lemma create_database_rows d :
  cities (create_database d).2 = cities d ∧ stops (create_database d).2 = stops d ∧
  routes (create_database d).2 = routes d.
Proof. by rewrite create_database_run_script. Qed.

Lemma first_run_schema upstream arrival d :
  schema (first_run upstream arrival d) = schema d.
Proof.
  rewrite first_run_replay.
  by destruct (replay_tables (run_statements upstream arrival) d) as (-> & _).
Qed.

Lemma pipeline_ok upstream arrival m d0 :
  create_database (disk m) = (inr tt, d0) →
  pipeline upstream arrival m =
  inr {| disk := first_run upstream arrival d0;
         route_summary := Some (export_route_summary (first_run upstream arrival d0));
         logged := logged m ++
                   (Population <$> (populate_database upstream arrival d0).2) ++
                   [RouteSummaryExported];
         stdout := stdout m |}.
Proof.
  intros H. unfold pipeline, first_run. rewrite H.
  by destruct (populate_database upstream arrival d0) as [d' log].
Qed.

Lemma pipeline_failed upstream arrival m e d :
  create_database (disk m) = (inl e, d) → pipeline upstream arrival m = inl e.
Proof. intros H. unfold pipeline. by rewrite H. Qed.





(** X15: so one execution of the file, with the same answers in both passes,
    leaves every route of the first pass in the store twice, while the City
    and Stop rows are those of a single pass. *)
Theorem script_adds_every_route_twice upstream (arrival : list Z) (m : Machine) d0 :
  create_database (disk m) = (inr tt, d0) →
  let final := script upstream arrival upstream arrival m in
  let added := omap route_write (run_statements upstream arrival) in
  cities (disk final) = cities (first_run upstream arrival (disk m)) ∧
  stops (disk final) = stops (first_run upstream arrival (disk m)) ∧
  route_key <$> routes (disk final) =
    (route_key <$> routes (disk m)) ++ added ++ added.
Proof.
  intros H. cbv zeta. unfold script, first_block.
  rewrite (pipeline_ok _ _ _ _ H). unfold second_block.
  erewrite pipeline_ok; cycle 1.
  { cbn [log_time disk]. eapply create_database_settled; [exact H|].
    apply first_run_schema. }
  cbn [log_time optimize_database print_analysis disk].
  destruct (create_database_rows (disk m)) as (Hc & Hs & Hr).
  rewrite H in Hc, Hs, Hr. cbn [snd] in Hc, Hs, Hr.
  rewrite !first_run_replay. set (E := run_statements upstream arrival).
  destruct (replay_tables E (replay E d0)) as (_ & -> & -> & ->).
  destruct (replay_tables E d0) as (_ & -> & -> & ->).
  destruct (replay_tables E (disk m)) as (_ & -> & -> & _).
  rewrite !upserts_twice, Hc, Hs, Hr. by rewrite <- app_assoc.
Qed.

Lemma script_adds_every_route_twice_witness :
  route_key <$> routes (disk (script riga_upstream submitted riga_upstream submitted
                                fresh_machine)) =
  (route_key <$> routes (disk fresh_machine)) ++
  omap route_write (run_statements riga_upstream submitted) ++
  omap route_write (run_statements riga_upstream submitted).
Proof.
  apply (script_adds_every_route_twice riga_upstream submitted fresh_machine
           (create_database empty_database).2).
  vm_compute. reflexivity.
Defined.

(** X16: when [create_database] raises, each of the two blocks logs the
    exception at level CRITICAL and does nothing else: no fetch result is
    written, no summary is exported, nothing is printed, and the file is what
    the failed script left of it. *)
Theorem script_stops_on_schema_error upstream1 (arrival1 : list Z)
    upstream2 (arrival2 : list Z) (m : Machine) e d :
  create_database (disk m) = (inl e, d) →
  script upstream1 arrival1 upstream2 arrival2 m =
  {| disk := d; route_summary := route_summary m;
     logged := logged m ++ [CriticalError e; CriticalError e];
     stdout := stdout m |}.
Proof.
  intros H. unfold script, first_block. rewrite (pipeline_failed _ _ _ _ _ H).
  assert (create_database d = (inl e, d)) as H'.
  { pose proof (create_database_twice (disk m)) as Ht. by rewrite H in Ht. }
  unfold second_block.
  erewrite pipeline_failed; cycle 1.
  { unfold critical. cbn [disk]. rewrite H. cbn [snd]. exact H'. }
  unfold critical. cbn [disk route_summary logged stdout]. rewrite H. cbn [snd].
  rewrite H'. cbn [snd]. by rewrite <- app_assoc.
Qed.

Lemma script_stops_on_schema_error_witness :
  script riga_upstream submitted riga_upstream submitted
    {| disk := clashing_database; route_summary := None; logged := []; stdout := [] |} =
  {| disk := clashing_database; route_summary := None;
     logged := [CriticalError (OperationalError "there is already an index of that name");
                CriticalError (OperationalError "there is already an index of that name")];
     stdout := [] |}.
Proof.
  apply (script_stops_on_schema_error riga_upstream submitted riga_upstream submitted
           {| disk := clashing_database; route_summary := None; logged := [];
              stdout := [] |}).
  vm_compute. reflexivity.
Defined.
